(** * The TCP port scanner of [aio_cli.network]

    A shallow embedding of [_resolve_host] and [port_scan] from
    [src/aio_cli/network.py], and the properties of the scan that the
    specification states.

    The command talks to the outside through three library calls:
    [socket.gethostbyname], [socket.socket(...)] with [settimeout] and
    [connect_ex], and [typer.echo]/[typer.secho].  The network is a
    parameter of the model (a [world]); every call that the command makes is
    recorded, in order, in a log of [event]s, and Python exceptions are
    carried by an error monad on top of that log.

    The same monad carries the other commands that are modelled here:
    [dns_lookup] and [subdomains] of the same module, [todo] of
    [utility.py], and the text of [caesar_cipher], [check_password] and
    [generate_password] of [security.py], a file that does not load as it
    is shipped (see the section on it). *)

From Stdlib Require Import ZArith List String Bool Sorted Lia.
From Stdlib Require Import PrimFloat.
From Stdlib Require DecimalString.
Import ListNotations.

Local Open Scope string_scope.
Local Open Scope Z_scope.
Local Open Scope list_scope.

(** ** Data *)

(** The exceptions that can travel through the commands.  [socket.error]
    is an alias of [OSError]; [socket.gaierror] (and [socket.timeout]) are
    subclasses of it.  [OverflowError] and [ValueError] are raised by the
    socket layer on arguments it refuses, [UnicodeError] (a subclass of
    [ValueError]) and [TypeError] by the resolver on names it cannot
    encode; [Exit] is [typer.Exit].  [AttributeError] and [KeyError] only
    occur in [todo], on a file that does not hold a list; [todo] also lets
    through the [OSError] of a failed write, the [OverflowError] of
    [list.pop] and the [TypeError] of a loop over a number. *)
Inductive exn : Type :=
| gaierror (msg : string)
| OSError
| OverflowError
| ValueError
| UnicodeError
| TypeError
| AttributeError
| KeyError
| Exit (code : Z).

(** [isinstance(e, socket.error)] *)
Definition is_socket_error (e : exn) : bool :=
  match e with
  | gaierror _ | OSError => true
  | OverflowError | ValueError | UnicodeError | TypeError
  | AttributeError | KeyError | Exit _ => false
  end.

(** [isinstance(e, socket.gaierror)], with the text of [str(e)] *)
Definition is_gaierror (e : exn) : option string :=
  match e with
  | gaierror msg => Some msg
  | _ => None
  end.

Inductive colour : Type := RED | GREEN | YELLOW.

(** An f-string after interpolation: text, with the floats left symbolic
    (their [repr] is not modelled).  A Python [float] is a binary64 number,
    as is a [float] here. *)
Inductive piece : Type :=
| Str (s : string)
| Float (x : float).

Definition fstring : Type := list piece.

(** What one call of [connect_ex] on a well-formed address does: it returns
    the error indicator of the C-level [connect] (0 on success, an errno
    such as [ECONNREFUSED], [EHOSTUNREACH] or, on time-out, [EWOULDBLOCK]
    otherwise), or raises a [socket.error]. *)
Inductive connect_result : Type :=
| Returns (errno : Z)
| RaisesSocketError.

(** What [socket.gethostbyname] does on a host: it returns an address,
    raises [socket.gaierror], or fails before any lookup on a name that it
    cannot hand to the C library: [UnicodeError] when the IDNA encoding
    fails (a label that is empty or longer than 63 characters, a character
    without encoding), [TypeError] when the name holds a null byte. *)
Inductive resolution : Type :=
| Resolved (ip : string)
| Unresolved (msg : string)
| BadLabel
| NullByte.

(** The network as the scan sees it: a fixed answer for every host, and a
    fixed outcome for every connect attempt to (ip, port) under a given
    socket time-out ([None] is a blocking socket). *)
Record world : Type := {
  gethostbyname : string -> resolution;
  connect : string -> Z -> option float -> connect_result
}.

(** The calls that leave the process, as they happen. *)
Inductive event : Type :=
| Echo (message : fstring) (fg : option colour) (err : bool)
| GetHostByName (host : string)
| SocketOpen
| Connect (ip : string) (port : Z) (timeout : option float)
| SocketClose.

(** ** The monad: a log of events and an exception or a value *)

Definition M (A : Type) : Type := (list event * (exn + A))%type.

Definition ret {A} (a : A) : M A := ([], inr a).

Definition raise {A} (e : exn) : M A := ([], inl e).

Definition emit (ev : event) : M unit := ([ev], inr tt).

Definition bind {A B} (m : M A) (k : A -> M B) : M B :=
  match m with
  | (log, inl e) => (log, inl e)
  | (log, inr a) => let (log', r) := k a in (log ++ log', r)
  end.

Notation "x <- m ;; k" := (bind m (fun x => k))
  (at level 61, m at next level, right associativity).
Notation "m ;; k" := (bind m (fun _ => k))
  (at level 61, right associativity).

(** [try: m except <class>: handler]: [handler e] is [None] when [e] is not
    an instance of the class, and the exception then propagates. *)
Definition try_except {A} (m : M A) (handler : exn -> option (M A)) : M A :=
  match m with
  | (log, inr a) => (log, inr a)
  | (log, inl e) =>
      match handler e with
      | Some h => let (log', r) := h in (log ++ log', r)
      | None => (log, inl e)
      end
  end.

(** [try: m finally: cleanup], the exit half of a [with] block. *)
Definition finally {A} (m : M A) (cleanup : M unit) : M A :=
  let (log, r) := m in
  match cleanup with
  | (log', inr _) => (log ++ log', r)
  | (log', inl e) => (log ++ log', inl e)
  end.

(** [for x in items: s = body x s] *)
Fixpoint for_each {S} (items : list Z) (body : Z -> S -> M S) (s : S) : M S :=
  match items with
  | [] => ret s
  | x :: rest => s' <- body x s ;; for_each rest body s'
  end.

Definition log_of {A} (m : M A) : list event := fst m.
Definition result_of {A} (m : M A) : exn + A := snd m.

(** ** Library calls *)

(** [range(lo, hi)] *)
Definition range (lo hi : Z) : list Z :=
  map (fun i => lo + Z.of_nat i) (seq 0 (Z.to_nat (hi - lo))).

(** [str(n)] for an [int] *)
Definition str (n : Z) : string :=
  DecimalString.NilZero.string_of_int (Z.to_int n).

(** [sep.join(items)] *)
Fixpoint join (sep : string) (items : list string) : string :=
  match items with
  | [] => ""
  | [s] => s
  | s :: rest => (s ++ sep ++ join sep rest)%string
  end.

Definition echo (message : fstring) : M unit :=
  emit (Echo message None false).

Definition secho (message : fstring) (fg : colour) (err : bool) : M unit :=
  emit (Echo message (Some fg) err).

(** A socket object; the only state the scan gives it is its time-out, kept
    here as it was given to [settimeout] (the interpreter rounds it up to a
    whole number of nanoseconds). *)
Record socket : Type := { gettimeout : option float }.

(** [socket.socket(socket.AF_INET, socket.SOCK_STREAM)]; the descriptor is
    taken to be available. *)
Definition socket_socket : M socket :=
  emit SocketOpen ;; ret {| gettimeout := None |}.

Definition close (sock : socket) : M unit := emit SocketClose.

(** [with socket.socket(...) as sock: body] *)
Definition with_socket {A} (body : socket -> M A) : M A :=
  sock <- socket_socket ;; finally (body sock) (close sock).

(** 2^63, the first number of nanoseconds that does not fit the 64-bit
    clock of the interpreter. *)
Definition ns_limit : float := 9223372036854775808%float.

(** What [sock.settimeout(t)] raises, if anything, on a [float], as CPython
    3.11 does it on a 64-bit Linux, where the time-out is kept as a signed
    64-bit number of nanoseconds: [ValueError] on [nan]; [OverflowError]
    when the product [t * 1e9] of binary64 numbers is not within -2^63 and
    2^63, infinities included; [ValueError] when the number of nanoseconds
    is negative, which is also what the conversion to 64 bits makes of a
    product of 2^63 exactly.  The rounding of [t * 1e9] to a whole number of
    nanoseconds, away from zero, changes none of the tests and is left
    out.  So [settimeout] accepts the time-outs from 0 to just under 2^63
    nanoseconds (some 9.2e9 seconds), and no other. *)
Definition settimeout_error (t : float) : option exn :=
  if is_nan t then Some ValueError
  else
    let ns := (t * 1e9)%float in
    if negb ((- ns_limit <=? ns)%float && (ns <=? ns_limit)%float)
    then Some OverflowError
    else if (ns <? 0)%float || (ns =? ns_limit)%float then Some ValueError
    else None.

(** [sock.settimeout(t)] *)
Definition settimeout (sock : socket) (t : float) : M socket :=
  match settimeout_error t with
  | Some e => raise e
  | None => ret {| gettimeout := Some t |}
  end.

(** The ports that the socket layer refuses in an address. *)
Definition port_refused (port : Z) : bool := (port <? 0) || (65535 <? port).

(** [sock.connect_ex((ip, port))]: a port outside 0..65535 is refused with
    [OverflowError] before anything is sent; otherwise the connection is
    attempted and its error indicator returned. *)
Definition connect_ex (w : world) (sock : socket) (address : string * Z) : M Z :=
  let (ip, port) := address in
  if port_refused port then raise OverflowError
  else
    emit (Connect ip port (gettimeout sock)) ;;
    match connect w ip port (gettimeout sock) with
    | Returns errno => ret errno
    | RaisesSocketError => raise OSError
    end.

(** [socket.gethostbyname(host)] *)
Definition socket_gethostbyname (w : world) (host : string) : M string :=
  emit (GetHostByName host) ;;
  match gethostbyname w host with
  | Resolved ip => ret ip
  | Unresolved msg => raise (gaierror msg)
  | BadLabel => raise UnicodeError
  | NullByte => raise TypeError
  end.

(** The exception of a name that the resolver cannot encode. *)
Definition name_error (r : resolution) : option exn :=
  match r with
  | BadLabel => Some UnicodeError
  | NullByte => Some TypeError
  | Resolved _ | Unresolved _ => None
  end.

(** ** The program *)

Definition _resolve_host (w : world) (host : string) : M string :=
  socket_gethostbyname w host.

(** The body of the [for] loop of [port_scan]: one probe, which appends
    [port] to [open_ports] when [connect_ex] returns 0. *)
Definition port_scan_probe (w : world) (target_ip : string) (timeout : float)
    (port : Z) (open_ports : list Z) : M (list Z) :=
  with_socket (fun sock =>
    sock <- settimeout sock timeout ;;
    try_except
      (result <- connect_ex w sock (target_ip, port) ;;
       if result =? 0 then ret (open_ports ++ [port]) else ret open_ports)
      (fun e => if is_socket_error e then Some (ret open_ports) else None)).

Definition scanning_banner (host : string) (start_port end_port : Z)
    (timeout : float) : fstring :=
  [Str ("Scanning " ++ host ++ " ports " ++ str start_port ++ "-"
        ++ str end_port ++ " with timeout ")%string;
   Float timeout; Str "s..."].

(** [port_scan] up to the end of its loop: the value of [open_ports] when
    the report starts. *)
Definition port_scan_open_ports (w : world) (host : string)
    (start_port end_port : Z) (timeout : float) : M (list Z) :=
  echo (scanning_banner host start_port end_port timeout) ;;
  target_ip <-
    try_except (_resolve_host w host)
      (fun e =>
         match is_gaierror e with
         | Some exc =>
             Some (secho [Str ("Failed to resolve host: " ++ exc)%string] RED true ;;
                   raise (Exit 1))
         | None => None
         end) ;;
  for_each (range start_port (end_port + 1))
    (port_scan_probe w target_ip timeout) [].

(** The report that ends [port_scan]. *)
Definition port_scan_report (open_ports : list Z) : M unit :=
  match open_ports with
  | _ :: _ =>
      secho [Str "Open ports:"] GREEN false ;;
      echo [Str (join ", " (map str open_ports))]
  | [] =>
      secho [Str "No open ports found in the specified range."] YELLOW false
  end.

Definition port_scan (w : world) (host : string) (start_port end_port : Z)
    (timeout : float) : M unit :=
  open_ports <- port_scan_open_ports w host start_port end_port timeout ;;
  port_scan_report open_ports.

(** The exit status of the process that ran the command: 0 when it returns,
    the code of [typer.Exit], 1 for an exception nobody caught. *)
Definition exit_code {A} (r : exn + A) : Z :=
  match r with
  | inr _ => 0
  | inl (Exit code) => code
  | inl _ => 1
  end.

(** ** Observations on a log *)

(** The ports that a connection was attempted to, in order. *)
Fixpoint probes (log : list event) : list Z :=
  match log with
  | [] => []
  | Connect _ port _ :: rest => port :: probes rest
  | _ :: rest => probes rest
  end.

(** The hosts handed to the resolver, in order. *)
Fixpoint resolutions (log : list event) : list string :=
  match log with
  | [] => []
  | GetHostByName host :: rest => host :: resolutions rest
  | _ :: rest => resolutions rest
  end.

(** The events that touch the network. *)
Definition is_network_io (ev : event) : bool :=
  match ev with
  | GetHostByName _ | Connect _ _ _ => true
  | _ => false
  end.

Definition network_io (log : list event) : list event :=
  filter is_network_io log.

Definition is_echo (ev : event) : bool :=
  match ev with
  | Echo _ _ _ => true
  | _ => false
  end.

(** What was printed, in order. *)
Definition printed (log : list event) : list event := filter is_echo log.

(** Replaying the log on a descriptor table: the number of sockets that
    are open after it, starting from [n] open ones; [None] when the log
    closes a socket that is not open or connects without one. *)
Fixpoint open_after (log : list event) (n : nat) : option nat :=
  match log with
  | [] => Some n
  | SocketOpen :: rest => open_after rest (S n)
  | SocketClose :: rest =>
      match n with
      | O => None
      | S n' => open_after rest n'
      end
  | Connect _ _ _ :: rest =>
      match n with
      | O => None
      | S _ => open_after rest n
      end
  | _ :: rest => open_after rest n
  end.

Definition opened (log : list event) : nat :=
  List.length (filter (fun ev => match ev with SocketOpen => true | _ => false end) log).

Definition closed (log : list event) : nat :=
  List.length (filter (fun ev => match ev with SocketClose => true | _ => false end) log).

(** The connect attempt to (ip, port) under time-out [t] establishes. *)
Definition is_open (w : world) (ip : string) (t : float) (port : Z) : bool :=
  match connect w ip port (Some t) with
  | Returns errno => errno =? 0
  | RaisesSocketError => false
  end.

(** The log of a probe that reaches the network. *)
Definition probe_log (ip : string) (t : float) (port : Z) : list event :=
  [SocketOpen; Connect ip port (Some t); SocketClose].

(** What was printed on the error stream. *)
Definition diagnostics (log : list event) : list event :=
  filter (fun ev => match ev with Echo _ _ true => true | _ => false end) log.

(** The lines of the command, as events. *)
Definition resolve_failed_message (msg : string) : event :=
  Echo [Str ("Failed to resolve host: " ++ msg)%string] (Some RED) true.

Definition none_found_message : event :=
  Echo [Str "No open ports found in the specified range."] (Some YELLOW) false.

Definition banner_message (host : string) (s e : Z) (t : float) : event :=
  Echo (scanning_banner host s e t) None false.

(** Two results have the same status when both are values or both are the
    same exception. *)
Definition same_status {A B} (r : exn + A) (r' : exn + B) : Prop :=
  match r, r' with
  | inl e, inl e' => e = e'
  | inr _, inr _ => True
  | _, _ => False
  end.

(** ** Sample worlds, used to run the model *)

Definition localhost_world (open : list Z) : world := {|
  gethostbyname := fun host =>
    if String.eqb host "localhost" then Resolved "127.0.0.1"
    else Unresolved "[Errno -2] Name or service not known";
  connect := fun ip port _ =>
    if existsb (Z.eqb port) open then Returns 0 else Returns 111
|}.

Definition refusing_world : world := {|
  gethostbyname := fun _ => Resolved "10.0.0.1";
  connect := fun _ port _ =>
    if port =? 23 then RaisesSocketError else Returns 111
|}.

(** A resolver that knows one name of [example.org] and cannot encode the
    name with an empty label. *)
Definition picky_world : world := {|
  gethostbyname := fun name =>
    if String.eqb name "mail.example.org" then Resolved "192.0.2.7"
    else if String.eqb name ".example.org" then BadLabel
    else Unresolved "[Errno -2] Name or service not known";
  connect := fun _ _ _ => Returns 111
|}.

(** ** The other resolving commands of the module: [dns_lookup], [subdomains] *)

(** [for x in items: s = body x s], over items of any type *)
Fixpoint for_in {A S} (items : list A) (body : A -> S -> M S) (s : S) : M S :=
  match items with
  | [] => ret s
  | x :: rest => s' <- body x s ;; for_in rest body s'
  end.

(** The address family of an entry of [socket.getaddrinfo]. *)
Inductive family : Type := AF_INET | AF_INET6 | AF_OTHER.

(** An entry of [socket.getaddrinfo]: its family and [sockaddr[0]]; the
    components that [dns_lookup] binds to [_] are left out. *)
Record addrinfo : Type := { ai_family : family; ai_host : string }.

(** What [socket.getaddrinfo(domain, None)] does: it returns its entries,
    raises [socket.gaierror], or fails before any lookup on a name that the
    [idna] codec cannot encode (a label that is empty or longer than 63
    characters), with [UnicodeError]. *)
Inductive lookup : Type :=
| Addresses (infos : list addrinfo)
| LookupFails (msg : string)
| LookupBadLabel.

(** What [dns_lookup] takes from outside: the answer of
    [socket.getaddrinfo(domain, None)] and the rendering of [tabulate]. *)
Record dns_env : Type := {
  getaddrinfo : string -> lookup;
  tabulate : list (string * string) -> list string -> string
}.

Definition socket_getaddrinfo (d : dns_env) (domain : string)
    : M (list addrinfo) :=
  match getaddrinfo d domain with
  | Addresses infos => ret infos
  | LookupFails msg => raise (gaierror msg)
  | LookupBadLabel => raise UnicodeError
  end.

(** The body of the loop of [dns_lookup] over [infos]. *)
Definition dns_lookup_step (addresses : list (string * string))
    (info : addrinfo) : list (string * string) :=
  let ip := ai_host info in
  match ai_family info with
  | AF_INET => addresses ++ [("A", ip)]
  | AF_INET6 => addresses ++ [("AAAA", ip)]
  | AF_OTHER => addresses
  end.

(** The value of [addresses] after the loop. *)
Definition dns_lookup_addresses (infos : list addrinfo)
    : list (string * string) :=
  fold_left dns_lookup_step infos [].

Definition dns_lookup (d : dns_env) (domain : string) : M unit :=
  infos <-
    try_except (socket_getaddrinfo d domain)
      (fun e =>
         match is_gaierror e with
         | Some exc =>
             Some (secho [Str ("DNS lookup failed: " ++ exc)%string] RED true ;;
                   raise (Exit 1))
         | None => None
         end) ;;
  match dns_lookup_addresses infos with
  | [] => secho [Str "No DNS records found."] YELLOW false
  | addresses => echo [Str (tabulate d addresses ["Record"; "IP Address"])]
  end.



(** The truth value of a [str]. *)
Definition nonempty (s : string) : bool := negb (String.eqb s "").







Definition fqdn_of (domain sub : string) : string :=
  (sub ++ "." ++ domain)%string.

(** The body of the loop of [subdomains] over [words]. *)
Definition subdomains_try (w : world) (domain : string) (sub : string)
    (found : list string) : M (list string) :=
  let fqdn := fqdn_of domain sub in
  try_except
    (_ <- socket_gethostbyname w fqdn ;;
     let found := found ++ [fqdn] in
     echo [Str (fqdn ++ " -> resolves")%string] ;;
     ret found)
    (fun e =>
       match is_gaierror e with
       | Some _ => Some (ret found)
       | None => None
       end).

(** [subdomains] from its loop on, on the words it has settled on. *)
Definition subdomains_enumerate (w : world) (domain : string)
    (words : list string) : M unit :=
  found <- for_in words (subdomains_try w domain) [] ;;
  match found with
  | [] =>
      secho [Str "No subdomains resolved from the provided wordlist."]
        YELLOW false
  | _ :: _ => ret tt
  end.


(** Whether a name resolves in a world. *)
Definition resolves (w : world) (name : string) : bool :=
  match gethostbyname w name with
  | Resolved _ => true
  | Unresolved _ | BadLabel | NullByte => false
  end.

Definition resolves_line (fqdn : string) : event :=
  Echo [Str (fqdn ++ " -> resolves")%string] None false.

Definition none_resolved_message : event :=
  Echo [Str "No subdomains resolved from the provided wordlist."]
    (Some YELLOW) false.

(** The log of one turn of the loop of [subdomains], on the name it looks
    up. *)
Definition lookup_log (w : world) (name : string) : list event :=
  GetHostByName name :: if resolves w name then [resolves_line name] else [].

(** The names that a loop of look-ups over [names] reaches, and the
    exception that stops it, if any: the first name that the resolver
    cannot encode is the last one tried. *)
Fixpoint lookups (w : world) (names : list string) : list string * option exn :=
  match names with
  | [] => ([], None)
  | name :: rest =>
      match name_error (gethostbyname w name) with
      | Some e => ([name], Some e)
      | None => let (tried, stop) := lookups w rest in (name :: tried, stop)
      end
  end.

(** A name that the resolver can encode. *)
Definition encodable (w : world) (name : string) : Prop :=
  name_error (gethostbyname w name) = None.

(** The rows that [dns_lookup] makes of one entry. *)
Definition dns_rows (info : addrinfo) : list (string * string) :=
  match ai_family info with
  | AF_INET => [("A", ai_host info)]
  | AF_INET6 => [("AAAA", ai_host info)]
  | AF_OTHER => []
  end.

Definition is_ip_family (info : addrinfo) : bool :=
  match ai_family info with
  | AF_INET | AF_INET6 => true
  | AF_OTHER => false
  end.

(** ** [security.py]: the Caesar cipher, the password meter, the password
    generator *)

(** [security.py] as it is shipped is not a Python module.  Line 89, the
    signature of [check_password], reads
    [typer.Option(.., prompt=True., hide_input=True, ...)]: two dots where
    the ellipsis is meant and a dot after [True], which the parser refuses
    with a [SyntaxError].  Importing the module therefore fails, and none
    of its commands runs, [generate_password] and [caesar_cipher]
    included.

    What follows is the text of three functions of the file, translated
    statement by statement: it is what they do once line 89 reads
    [typer.Option(..., prompt=True, hide_input=True, ...)], the only change
    that is needed for the file to load.  Everything proved of
    [caesar_cipher], [check_password] and [generate_password] below is
    proved of that text, and holds of no run of the file as shipped. *)

(** A [str] that the code takes apart character by character is the list
    of its code points; [ord] and [chr] are then the identity. *)
Definition codes : Type := list Z.

(** The character predicates of [str], which the Unicode database
    decides. *)
Record unicode : Type := {
  isalpha : Z -> bool;
  isupper : Z -> bool;
  islower : Z -> bool;
  isdigit : Z -> bool
}.

(** What the loop of [caesar_cipher] appends for [char]; 65 and 97 are
    [ord('A')] and [ord('a')], and [%] is the floored remainder. *)
Definition caesar_char (u : unicode) (shift char : Z) : Z :=
  if isalpha u char then
    let base := if isupper u char then 65 else 97 in
    (char - base + shift) mod 26 + base
  else char.

(** The text that [caesar_cipher] echoes. *)
Definition caesar_cipher (u : unicode) (text : codes) (shift : Z) : codes :=
  fold_left (fun result char => result ++ [caesar_char u shift char]) text [].

(** [string.ascii_lowercase], [string.ascii_uppercase], [string.digits] and
    [string.punctuation] *)
Definition ascii_lowercase : codes := range 97 123.
Definition ascii_uppercase : codes := range 65 91.
Definition digits : codes := range 48 58.
Definition punctuation : codes :=
  range 33 48 ++ range 58 65 ++ range 91 97 ++ range 123 127.

(** [c in string.punctuation], for a character [c] *)
Definition in_punctuation (c : Z) : bool := existsb (Z.eqb c) punctuation.

(** [score] and [feedback] of [check_password] when its five tests are
    done. *)
Definition check_password_score (u : unicode) (password : codes)
    : Z * list string :=
  let score := 0 in
  let feedback := [] in
  let length := Z.of_nat (List.length password) in
  let (score, feedback) :=
    if 8 <=? length then (score + 1, feedback)
    else (score, feedback ++ ["Make it at least 8 characters."]) in
  let (score, feedback) :=
    if existsb (islower u) password then (score + 1, feedback)
    else (score, feedback ++ ["Add some lowercase letters."]) in
  let (score, feedback) :=
    if existsb (isupper u) password then (score + 1, feedback)
    else (score, feedback ++ ["Add some uppercase letters."]) in
  let (score, feedback) :=
    if existsb (isdigit u) password then (score + 1, feedback)
    else (score, feedback ++ ["Include digits."]) in
  let (score, feedback) :=
    if existsb in_punctuation password then (score + 1, feedback)
    else (score, feedback ++ ["Include special characters."]) in
  (score, feedback).

(** The escape character followed by an opening bracket. *)
Definition CSI : string := String (Ascii.ascii_of_nat 27) "[".

(** [colorama]'s [Fore.GREEN], [Fore.YELLOW], [Fore.RED] and
    [Style.RESET_ALL] *)
Definition Fore_GREEN : string := (CSI ++ "32m")%string.
Definition Fore_YELLOW : string := (CSI ++ "33m")%string.
Definition Fore_RED : string := (CSI ++ "31m")%string.
Definition Style_RESET_ALL : string := (CSI ++ "0m")%string.

Definition levels : list (Z * string) :=
  [ (5, (Fore_GREEN ++ "Strong" ++ Style_RESET_ALL)%string);
    (4, (Fore_GREEN ++ "Good" ++ Style_RESET_ALL)%string);
    (3, (Fore_YELLOW ++ "Fair" ++ Style_RESET_ALL)%string);
    (2, (Fore_YELLOW ++ "Weak" ++ Style_RESET_ALL)%string);
    (1, (Fore_RED ++ "Very weak" ++ Style_RESET_ALL)%string);
    (0, (Fore_RED ++ "Extremely weak" ++ Style_RESET_ALL)%string) ].

(** [d.get(key)] on a [dict] with [int] keys *)
Definition dict_get {V} (d : list (Z * V)) (key : Z) : option V :=
  option_map snd (find (fun entry => fst entry =? key) d).

(** [levels.get(score, levels[0])]; [levels[0]] is there. *)
Definition level_of (score : Z) : string :=
  match dict_get levels score with
  | Some label => label
  | None =>
      match dict_get levels 0 with
      | Some label => label
      | None => ""
      end
  end.

Definition check_password (u : unicode) (password : codes) : M unit :=
  let (score, feedback) := check_password_score u password in
  echo [Str ("Score: " ++ str score ++ "/5 -> " ++ level_of score)%string] ;;
  match feedback with
  | [] => ret tt
  | _ :: _ =>
      echo [Str "Suggestions:"] ;;
      for_in feedback
        (fun msg _ => echo [Str ("  • " ++ msg)%string]) tt
  end.

(** A [str] of ASCII characters, from its code points. *)
Definition string_of_codes (s : codes) : string :=
  fold_right (fun c rest => String (Ascii.ascii_of_nat (Z.to_nat c)) rest) "" s.

(** The alphabet that [generate_password] draws from. *)
Definition password_alphabet (include_upper include_digits include_symbols : bool)
    : codes :=
  let alphabet := ascii_lowercase in
  let alphabet := if include_upper then alphabet ++ ascii_uppercase else alphabet in
  let alphabet := if include_digits then alphabet ++ digits else alphabet in
  let alphabet := if include_symbols then alphabet ++ punctuation else alphabet in
  alphabet.

(** [random.SystemRandom().choice(seq)] is [seq[randbelow(len(seq))]]; the
    source of randomness is [randbelow], asked for the [i]-th time. *)
Definition choice (randbelow : nat -> nat -> nat) (i : nat) (seq : codes) : Z :=
  nth (randbelow i (List.length seq)) seq 0.

Definition generate_password (randbelow : nat -> nat -> nat) (length : Z)
    (include_upper include_digits include_symbols : bool) : M unit :=
  if length <=? 0 then
    secho [Str "Password length must be positive."] RED false ;;
    raise (Exit 1)
  else
    let alphabet :=
      password_alphabet include_upper include_digits include_symbols in
    match alphabet with
    | [] =>
        secho [Str "No character classes selected."] RED false ;;
        raise (Exit 1)
    | _ :: _ =>
        let password :=
          map (fun i => choice randbelow i alphabet)
            (seq 0 (Z.to_nat length)) in
        echo [Str (string_of_codes password)]
    end.

(** The facts on the ASCII letters that the theorems on the cipher take
    from the Unicode database: A to Z are upper-case letters, a to z are
    letters that are not upper-case. *)
Definition ascii_letters (u : unicode) : Prop :=
  (forall c, 65 <= c <= 90 -> isalpha u c = true /\ isupper u c = true)
  /\ (forall c, 97 <= c <= 122 -> isalpha u c = true /\ isupper u c = false).

Definition is_ascii_letter (c : Z) : Prop := 65 <= c <= 90 \/ 97 <= c <= 122.

Definition between (lo hi c : Z) : bool := (lo <=? c) && (c <=? hi).

(** The predicates as the Unicode database has them on the code points
    below 256, to run the models on texts of such characters; they are not
    given above 255, where this sample answers [false]. *)
Definition latin1_unicode : unicode := {|
  isalpha := fun c =>
    between 65 90 c || between 97 122 c || (c =? 170) || (c =? 181)
    || (c =? 186) || between 192 214 c || between 216 246 c
    || between 248 255 c;
  isupper := fun c =>
    between 65 90 c || between 192 214 c || between 216 222 c;
  islower := fun c =>
    between 97 122 c || (c =? 170) || (c =? 181) || (c =? 186)
    || between 223 246 c || between 248 255 c;
  isdigit := fun c =>
    between 48 57 c || between 178 179 c || (c =? 185)
|}.

(** ** [utility.py]: the to-do list *)

(** An element of the list in the to-do file: a task, which [add] stores
    as a JSON string, or a JSON value of another kind that the file held;
    of the latter [todo] uses only what [str] makes of it. *)
Inductive element : Type :=
| Text (task : string)
| NotText (shown : string).

(** [str(task)], as the f-strings of [todo] take it *)
Definition str_of (e : element) : string :=
  match e with
  | Text task => task
  | NotText shown => shown
  end.

(** What [json.loads] makes of the file, as far as [todo] can tell: a
    list; an object, by its keys in order; a string, by its characters;
    or a number, [true], [false] or [null], by its truth value. *)
Inductive value : Type :=
| PyList (items : list element)
| PyDict (keys : list string)
| PyStr (chars : list string)
| PyScalar (truthy : bool).

(** The to-do file: absent, something that [read_text] or [json.loads]
    raises on, or a JSON document. *)
Inductive content : Type :=
| Absent
| Broken
| Json (v : value).

(** What [TODO_FILE.write_text] does: it writes the file, or raises
    [OSError] and leaves it as [remains] (as it was when it cannot be
    opened for writing, cut short when the device fills up). *)
Inductive write_result : Type :=
| Written
| WriteFails (remains : content).

(** What [todo] takes from the file system. *)
Record disk : Type := {
  file : content;
  write_text : list element -> write_result
}.

(** The two [str] functions that [todo] applies to its arguments:
    [action.lower()] and [int(item)], [None] for its [ValueError]. *)
Record str_lib : Type := {
  lower : string -> string;
  int_of_str : string -> option Z
}.

Definition _load_todo (d : disk) : value :=
  match file d with
  | Json v => v
  | Broken => PyList []
  | Absent => PyList []
  end.

(** [_save_todo]: what it does, and the file it leaves.  [json.dumps]
    writes a list that [json.loads] reads back as it was. *)
Definition _save_todo (d : disk) (tasks : list element) : M unit * content :=
  match write_text d tasks with
  | Written => (ret tt, Json (PyList tasks))
  | WriteFails remains => (raise OSError, remains)
  end.

(** The largest [Py_ssize_t], on a 64-bit build of the interpreter. *)
Definition ssize_max : Z := 9223372036854775807.

(** What [l.pop(idx)] does: it returns an element and leaves the rest,
    raises [IndexError], or raises [OverflowError] on an index that is not
    a [Py_ssize_t].  A negative index counts from the end. *)
Inductive pop_result (A : Type) : Type :=
| Popped (x : A) (rest : list A)
| PopIndexError
| PopOverflowError.

Arguments Popped {A} x rest.
Arguments PopIndexError {A}.
Arguments PopOverflowError {A}.

Definition list_pop {A} (l : list A) (idx : Z) : pop_result A :=
  if (idx <? - ssize_max - 1) || (ssize_max <? idx) then PopOverflowError
  else
    let n := Z.of_nat (List.length l) in
    let i := if idx <? 0 then idx + n else idx in
    if (i <? 0) || (n <=? i) then PopIndexError
    else
      match nth_error l (Z.to_nat i) with
      | Some x => Popped x (firstn (Z.to_nat i) l ++ skipn (S (Z.to_nat i)) l)
      | None => PopIndexError
      end.

(** [enumerate(items, start)] *)
Definition enumerate {A} (items : list A) (start : Z) : list (Z * A) :=
  combine (range start (start + Z.of_nat (List.length items))) items.

(** The truth value of an [Optional[str]]. *)
Definition given (item : option string) : option string :=
  match item with
  | Some text => if nonempty text then Some text else None
  | None => None
  end.

(** The truth value of what [_load_todo] returns. *)
Definition truth (v : value) : bool :=
  match v with
  | PyList [] | PyDict [] | PyStr [] => false
  | PyList (_ :: _) | PyDict (_ :: _) | PyStr (_ :: _) => true
  | PyScalar truthy => truthy
  end.

(** What a [for] loop on it goes through, by the [str] of each item;
    [None] for the [TypeError] of a value that is not iterable. *)
Definition iterate (v : value) : option (list string) :=
  match v with
  | PyList items => Some (map str_of items)
  | PyDict keys => Some keys
  | PyStr chars => Some chars
  | PyScalar _ => None
  end.

(** [todo]: what it prints, and the file it leaves. *)
Definition todo (lib : str_lib) (d : disk) (action : string)
    (item : option string) : M unit * content :=
  let tasks := _load_todo d in
  let act := lower lib action in
  if String.eqb act "add" then
    match given item with
    | None => (secho [Str "You must provide a task to add."] RED false, file d)
    | Some item =>
        match tasks with
        | PyList tasks =>
            let tasks := tasks ++ [Text item] in
            let (saved, left) := _save_todo d tasks in
            (saved ;; secho [Str "Task added."] GREEN false, left)
        | PyDict _ | PyStr _ | PyScalar _ => (raise AttributeError, file d)
        end
    end
  else if String.eqb act "list" then
    if negb (truth tasks) then (secho [Str "No tasks."] YELLOW false, file d)
    else
      match iterate tasks with
      | None => (raise TypeError, file d)
      | Some items =>
          (for_in (enumerate items 1)
             (fun entry _ =>
                echo [Str (str (fst entry) ++ ". " ++ snd entry)%string]) tt,
           file d)
      end
  else if String.eqb act "remove" then
    match given item with
    | None =>
        (secho [Str "You must provide the task number to remove."] RED false,
         file d)
    | Some item =>
        match int_of_str lib item with
        | None => (secho [Str "Invalid task number."] RED false, file d)
        | Some number =>
            let idx := number - 1 in
            match tasks with
            | PyList tasks =>
                match list_pop tasks idx with
                | PopOverflowError => (raise OverflowError, file d)
                | PopIndexError =>
                    (secho [Str "Invalid task number."] RED false, file d)
                | Popped removed tasks =>
                    let (saved, left) := _save_todo d tasks in
                    (saved ;;
                     secho [Str ("Removed: " ++ str_of removed)%string]
                       GREEN false,
                     left)
                end
            | PyDict _ => (raise KeyError, file d)
            | PyStr _ | PyScalar _ => (raise AttributeError, file d)
            end
        end
    end
  else (secho [Str "Action must be add, list, or remove."] RED false, file d).

(** What [add] and [remove] do once their argument is settled, on a file
    that gives a list *)
Definition saved_with (d : disk) (tasks : list element) (message : string)
    : M unit * content :=
  match write_text d tasks with
  | Written =>
      (([Echo [Str message] (Some GREEN) false], inr tt), Json (PyList tasks))
  | WriteFails remains => (([], inl OSError), remains)
  end.

(** A line of [todo list]. *)
Definition task_line (entry : Z * string) : event :=
  Echo [Str (str (fst entry) ++ ". " ++ snd entry)%string] None false.


(** A file system that takes every write, and one that takes none and
    leaves the file as it was. *)
Definition writable (c : content) : disk :=
  {| file := c; write_text := fun _ => Written |}.

Definition read_only (c : content) : disk :=
  {| file := c; write_text := fun _ => WriteFails c |}.

(** The file system after a command that left the file as [c]. *)
Definition then_holds (d : disk) (c : content) : disk :=
  {| file := c; write_text := write_text d |}.

(** [str.lower] on ASCII letters, to run the model; the characters outside
    ASCII are left as they are. *)
Fixpoint ascii_lower (s : string) : string :=
  match s with
  | EmptyString => EmptyString
  | String c rest =>
      let n := Ascii.nat_of_ascii c in
      String
        (if ((65 <=? n) && (n <=? 90))%nat then Ascii.ascii_of_nat (n + 32) else c)
        (ascii_lower rest)
  end.

(** The value of a string of ASCII digits. *)
Fixpoint digits_value (s : string) (acc : Z) : option Z :=
  match s with
  | EmptyString => Some acc
  | String c rest =>
      let n := Z.of_nat (Ascii.nat_of_ascii c) in
      if (48 <=? n) && (n <=? 57) then digits_value rest (10 * acc + (n - 48))
      else None
  end.

(** [int] on the numerals made of an optional sign (45 is the minus sign,
    43 the plus sign) and ASCII digits, to run the model; [int] also takes white space around the numeral,
    underscores between digits and the digits of other scripts, and
    refuses numerals of more than 4300 digits, none of which this sample
    does. *)
Definition int_of_ascii (s : string) : option Z :=
  match s with
  | EmptyString => None
  | String c rest =>
      if (Ascii.nat_of_ascii c =? 45)%nat
      then if nonempty rest then option_map Z.opp (digits_value rest 0) else None
      else if (Ascii.nat_of_ascii c =? 43)%nat
      then if nonempty rest then digits_value rest 0 else None
      else digits_value s 0
  end.

Definition ascii_lib : str_lib := {|
  lower := ascii_lower;
  int_of_str := int_of_ascii
|}.

(** ** Lemmas on the library functions *)

Example str_join : join ", " (map str [22; 80; 443]) = "22, 80, 443".
Proof. reflexivity. Qed.

Example str_negative : str (-5) = "-5" /\ str 0 = "0".
Proof. split; reflexivity. Qed.

Example range_1_10 : range 1 (10 + 1) = [1; 2; 3; 4; 5; 6; 7; 8; 9; 10].
Proof. reflexivity. Qed.

Example only_7_is_open :
  result_of (port_scan_open_ports (localhost_world [7]) "localhost" 1 10 0.25%float)
  = inr [7].
Proof. reflexivity. Qed.

Example one_open_one_closed :
  result_of (port_scan_open_ports (localhost_world [50000]) "localhost"
               50000 50001 0.25%float)
  = inr [50000].
Proof. reflexivity. Qed.

Example run_7 :
  port_scan (localhost_world [7]) "localhost" 6 7 0.5%float
  = ([Echo [Str "Scanning localhost ports 6-7 with timeout "; Float 0.5%float;
            Str "s..."] None false;
      GetHostByName "localhost";
      SocketOpen; Connect "127.0.0.1" 6 (Some 0.5%float); SocketClose;
      SocketOpen; Connect "127.0.0.1" 7 (Some 0.5%float); SocketClose;
      Echo [Str "Open ports:"] (Some GREEN) false;
      Echo [Str "7"] None false],
     inr tt).
Proof. reflexivity. Qed.

Lemma settimeout_error_class (t : float) (e : exn) :
  settimeout_error t = Some e -> e = ValueError \/ e = OverflowError.
Proof.
  unfold settimeout_error.
  destruct (is_nan t); [intros H; left; now inversion H|]. cbv zeta.
  destruct (negb _); [intros H; right; now inversion H|].
  destruct (_ || _); [intros H; left; now inversion H | discriminate].
Qed.

(** The time-outs at the edges of what [settimeout] takes: 0 and minus 0
    are accepted, the smallest negative number is not; the largest
    binary64 number whose product with 1e9 is below 2^63 is accepted, the
    next one is not. *)
Example settimeout_edges :
  settimeout_error 0%float = None
  /\ settimeout_error (- 0)%float = None
  /\ settimeout_error 0.5%float = None
  /\ settimeout_error 0x1.12e0be826d694p+33%float = None
  /\ settimeout_error 0x1.12e0be826d695p+33%float = Some ValueError
  /\ settimeout_error 9223372037%float = Some OverflowError
  /\ settimeout_error infinity = Some OverflowError
  /\ settimeout_error neg_infinity = Some OverflowError
  /\ settimeout_error nan = Some ValueError
  /\ settimeout_error (- 0x1p-1074)%float = Some ValueError
  /\ settimeout_error (- 0x1.12e0be826d695p+33)%float = Some ValueError
  /\ settimeout_error (- 9223372037)%float = Some OverflowError.
Proof. repeat split; reflexivity. Qed.

Lemma range_In (lo hi p : Z) : In p (range lo hi) <-> lo <= p < hi.
Proof.
  unfold range. rewrite in_map_iff. split.
  - intros (i & Hp & Hi). apply in_seq in Hi. lia.
  - intros Hp. exists (Z.to_nat (p - lo)). split; [lia|].
    apply in_seq. lia.
Qed.

Lemma range_length (lo hi : Z) : List.length (range lo hi) = Z.to_nat (hi - lo).
Proof. unfold range. now rewrite length_map, length_seq. Qed.

Lemma range_empty (lo hi : Z) : hi <= lo -> range lo hi = [].
Proof.
  intros H. unfold range. replace (Z.to_nat (hi - lo)) with O by lia.
  reflexivity.
Qed.

Lemma range_single (lo : Z) : range lo (lo + 1) = [lo].
Proof.
  unfold range. replace (Z.to_nat (lo + 1 - lo)) with 1%nat by lia.
  simpl. f_equal. lia.
Qed.

Lemma shifted_seq_sorted (lo : Z) (n k : nat) :
  StronglySorted Z.lt (map (fun i => lo + Z.of_nat i) (seq k n)).
Proof.
  revert k. induction n as [|n IH]; intros k; simpl.
  - constructor.
  - constructor; [apply IH|].
    apply Forall_forall. intros x Hx.
    apply in_map_iff in Hx. destruct Hx as (i & <- & Hi).
    apply in_seq in Hi. lia.
Qed.

Lemma range_sorted (lo hi : Z) : StronglySorted Z.lt (range lo hi).
Proof. apply shifted_seq_sorted. Qed.

Lemma Forall_filter_keeps {A} (P : A -> Prop) (f : A -> bool) (l : list A) :
  Forall P l -> Forall P (filter f l).
Proof.
  rewrite !Forall_forall. intros H x Hx.
  apply filter_In in Hx. now apply H.
Qed.

Lemma filter_sorted (f : Z -> bool) (l : list Z) :
  StronglySorted Z.lt l -> StronglySorted Z.lt (filter f l).
Proof.
  induction 1 as [|a l Hl IH Ha]; simpl.
  - constructor.
  - destruct (f a); [|exact IH].
    constructor; [exact IH|]. now apply Forall_filter_keeps.
Qed.

Lemma sorted_count_le_1 (l : list Z) (p : Z) :
  StronglySorted Z.lt l -> (count_occ Z.eq_dec l p <= 1)%nat.
Proof.
  induction 1 as [|a l Hl IH Ha]; simpl; [lia|].
  destruct (Z.eq_dec a p) as [->|]; [|exact IH].
  assert (count_occ Z.eq_dec l p = 0%nat) as ->; [|lia].
  apply count_occ_not_In. intros Hin.
  rewrite Forall_forall in Ha. specialize (Ha _ Hin). lia.
Qed.

Lemma range_count (lo hi p : Z) :
  lo <= p < hi -> count_occ Z.eq_dec (range lo hi) p = 1%nat.
Proof.
  intros Hp.
  pose proof (sorted_count_le_1 (range lo hi) p (range_sorted lo hi)).
  assert (count_occ Z.eq_dec (range lo hi) p > 0)%nat.
  { apply count_occ_In. now apply range_In. }
  lia.
Qed.

(** ** The probe and the loop *)

Section Loop.

Variable w : world.
Variable ip : string.
Variable t : float.

Lemma probe_cases (port : Z) (acc : list Z) :
  port_scan_probe w ip t port acc =
  match settimeout_error t with
  | Some e => ([SocketOpen; SocketClose], inl e)
  | None =>
      if port_refused port then ([SocketOpen; SocketClose], inl OverflowError)
      else (probe_log ip t port,
            inr (if is_open w ip t port then acc ++ [port] else acc))
  end.
Proof.
  unfold port_scan_probe, with_socket, settimeout, connect_ex, port_refused,
    is_open, probe_log.
  destruct (settimeout_error t); [reflexivity|].
  destruct ((port <? 0) || (65535 <? port)); [reflexivity|].
  simpl. destruct (connect w ip port (Some t)) as [errno|]; [|reflexivity].
  simpl. destruct (errno =? 0); reflexivity.
Qed.

Local Abbreviation loop ports acc :=
  (for_each ports (port_scan_probe w ip t) acc).

Lemma loop_cons (p : Z) (ports acc : list Z) :
  loop (p :: ports) acc =
  match settimeout_error t with
  | Some e => ([SocketOpen; SocketClose], inl e)
  | None =>
      if port_refused p then ([SocketOpen; SocketClose], inl OverflowError)
      else
        let (log, r) :=
          loop ports (if is_open w ip t p then acc ++ [p] else acc) in
        (probe_log ip t p ++ log, r)
  end.
Proof.
  simpl. rewrite probe_cases.
  destruct (settimeout_error t); [reflexivity|].
  destruct (port_refused p); reflexivity.
Qed.

(** When nothing is refused the loop runs to its end. *)
Lemma loop_completes (ports acc : list Z) :
  settimeout_error t = None ->
  Forall (fun p => port_refused p = false) ports ->
  loop ports acc =
  (flat_map (probe_log ip t) ports, inr (acc ++ filter (is_open w ip t) ports)).
Proof.
  intros Ht Hports. revert acc.
  induction Hports as [|p ports Hp Hports IH]; intros acc.
  - simpl. now rewrite app_nil_r.
  - rewrite loop_cons, Ht, Hp, IH. simpl.
    destruct (is_open w ip t p); [now rewrite <- app_assoc | reflexivity].
Qed.

(** When the loop returns, it has run to its end. *)
Lemma loop_returns (ports acc l : list Z) :
  result_of (loop ports acc) = inr l ->
  loop ports acc =
  (flat_map (probe_log ip t) ports, inr (acc ++ filter (is_open w ip t) ports)).
Proof.
  revert acc. induction ports as [|p ports IH]; intros acc H.
  - simpl. now rewrite app_nil_r.
  - rewrite loop_cons in *.
    destruct (settimeout_error t); [discriminate|].
    destruct (port_refused p); [discriminate|].
    destruct (loop ports _) as [log r] eqn:E in H. simpl in H. subst r.
    rewrite IH by (rewrite E; reflexivity). simpl.
    destruct (is_open w ip t p); [now rewrite <- app_assoc | reflexivity].
Qed.

(** The loop only stops early on an argument that the socket layer
    refuses; a [socket.error] never leaves it. *)
Lemma loop_raises (ports acc : list Z) (e : exn) :
  result_of (loop ports acc) = inl e ->
  e = ValueError \/ e = OverflowError.
Proof.
  revert acc. induction ports as [|p ports IH]; intros acc H.
  - discriminate.
  - rewrite loop_cons in H.
    destruct (settimeout_error t) as [e'|] eqn:Ht;
      [inversion H; subst e'; now apply (settimeout_error_class t)|].
    destruct (port_refused p); [right; now inversion H|].
    destruct (loop ports _) as [log r] eqn:E in H. simpl in H. subst r.
    apply (IH (if is_open w ip t p then acc ++ [p] else acc)).
    now rewrite E.
Qed.

(** Every log of the loop, complete or not, leaves the descriptor table
    as it found it, and talks to no resolver. *)
Lemma loop_log (ports acc : list Z) :
  let log := log_of (loop ports acc) in
  (forall rest n, open_after (log ++ rest) n = open_after rest n)
  /\ opened log = closed log
  /\ resolutions log = []
  /\ printed log = []
  /\ (List.length (probes log) <= opened log <= List.length ports)%nat.
Proof.
  revert acc. induction ports as [|p ports IH]; intros acc; cbv zeta.
  - simpl. repeat split; auto.
  - rewrite loop_cons.
    destruct (settimeout_error t).
    { simpl. repeat split; auto; unfold opened; simpl; lia. }
    destruct (port_refused p).
    { simpl. repeat split; auto; unfold opened; simpl; lia. }
    specialize (IH (if is_open w ip t p then acc ++ [p] else acc)).
    cbv zeta in IH.
    destruct (for_each ports _ _) as [log r]. simpl in *.
    destruct IH as (Hfd & Hoc & Hres & Hpr & Hk1 & Hk2).
    unfold opened, closed in *. simpl.
    repeat split; auto; lia.
Qed.

End Loop.

(** Whether and where the loop stops does not depend on what the connect
    attempts answer, nor on the ports found so far. *)
Lemma loop_status (w w' : world) (ip : string) (t : float) (ports acc acc' : list Z) :
  let run := for_each ports (port_scan_probe w ip t) acc in
  let run' := for_each ports (port_scan_probe w' ip t) acc' in
  same_status (result_of run) (result_of run')
  /\ probes (log_of run) = probes (log_of run').
Proof.
  cbv zeta. revert acc acc'.
  induction ports as [|p ports IH]; intros acc acc'.
  - simpl. auto.
  - rewrite !loop_cons.
    destruct (settimeout_error t); [simpl; auto|].
    destruct (port_refused p); [simpl; auto|].
    specialize (IH (if is_open w ip t p then acc ++ [p] else acc)
                   (if is_open w' ip t p then acc' ++ [p] else acc')).
    destruct (for_each ports (port_scan_probe w ip t) _) as [log r].
    destruct (for_each ports (port_scan_probe w' ip t) _) as [log' r'].
    simpl in *. destruct IH as [Hs Hp]. split; [exact Hs | now rewrite Hp].
Qed.

(** The loop only looks at the connect outcomes of the ports it is given. *)
Lemma loop_ext (w w' : world) (ip : string) (t : float) (ports acc : list Z) :
  (forall p, In p ports -> connect w ip p (Some t) = connect w' ip p (Some t)) ->
  for_each ports (port_scan_probe w ip t) acc
  = for_each ports (port_scan_probe w' ip t) acc.
Proof.
  revert acc. induction ports as [|p ports IH]; intros acc H; [reflexivity|].
  rewrite !loop_cons.
  assert (is_open w ip t p = is_open w' ip t p) as ->.
  { unfold is_open. rewrite (H p); [reflexivity | now left]. }
  rewrite IH; [reflexivity|]. intros q Hq. apply H. now right.
Qed.

(** ** The whole command *)

Lemma open_ports_unresolved (w : world) (host msg : string) (s e : Z) (t : float) :
  gethostbyname w host = Unresolved msg ->
  port_scan_open_ports w host s e t
  = ([banner_message host s e t; GetHostByName host;
      resolve_failed_message msg], inl (Exit 1)).
Proof.
  intros H. unfold port_scan_open_ports, _resolve_host, socket_gethostbyname.
  simpl. rewrite H. reflexivity.
Qed.

Lemma open_ports_resolved (w : world) (host ip : string) (s e : Z) (t : float) :
  gethostbyname w host = Resolved ip ->
  port_scan_open_ports w host s e t
  = let (log, r) := for_each (range s (e + 1)) (port_scan_probe w ip t) [] in
    (banner_message host s e t :: GetHostByName host :: log, r).
Proof.
  intros H. unfold port_scan_open_ports, _resolve_host, socket_gethostbyname.
  simpl. rewrite H. simpl.
  destruct (for_each _ _ _) as [log r]. reflexivity.
Qed.

Lemma open_ports_refused (w : world) (host : string) (s e : Z) (t : float)
    (x : exn) :
  name_error (gethostbyname w host) = Some x ->
  port_scan_open_ports w host s e t
  = ([banner_message host s e t; GetHostByName host], inl x).
Proof.
  intros H. unfold port_scan_open_ports, _resolve_host, socket_gethostbyname.
  simpl. destruct (gethostbyname w host); inversion H; reflexivity.
Qed.

Lemma port_scan_refused (w : world) (host : string) (s e : Z) (t : float)
    (x : exn) :
  name_error (gethostbyname w host) = Some x ->
  port_scan w host s e t
  = ([banner_message host s e t; GetHostByName host], inl x).
Proof.
  intros H. unfold port_scan. now rewrite (open_ports_refused _ _ _ _ _ x).
Qed.

Lemma port_scan_unresolved (w : world) (host msg : string) (s e : Z) (t : float) :
  gethostbyname w host = Unresolved msg ->
  port_scan w host s e t
  = ([banner_message host s e t; GetHostByName host;
      resolve_failed_message msg], inl (Exit 1)).
Proof.
  intros H. unfold port_scan. now rewrite (open_ports_unresolved _ _ msg).
Qed.

(** A scan that gets its list of open ports went through resolution and
    through the whole range. *)
Lemma open_ports_returned (w : world) (host : string) (s e : Z) (t : float)
    (ports : list Z) :
  result_of (port_scan_open_ports w host s e t) = inr ports ->
  exists ip,
    gethostbyname w host = Resolved ip
    /\ ports = filter (is_open w ip t) (range s (e + 1))
    /\ port_scan_open_ports w host s e t
       = (banner_message host s e t :: GetHostByName host
            :: flat_map (probe_log ip t) (range s (e + 1)),
          inr ports).
Proof.
  intros H. destruct (gethostbyname w host) as [ip|msg| |] eqn:Hres.
  - exists ip. split; [reflexivity|].
    rewrite (open_ports_resolved _ _ ip) in * by assumption.
    destruct (for_each _ _ _) as [log r] eqn:E. simpl in H. subst r.
    pose proof (loop_returns w ip t (range s (e + 1)) [] ports) as L.
    rewrite E in L. specialize (L eq_refl). inversion L. subst.
    split; reflexivity.
  - rewrite (open_ports_unresolved _ _ msg) in H by assumption. discriminate.
  - rewrite (open_ports_refused _ _ _ _ _ UnicodeError) in H
      by (rewrite Hres; reflexivity).
    discriminate.
  - rewrite (open_ports_refused _ _ _ _ _ TypeError) in H
      by (rewrite Hres; reflexivity).
    discriminate.
Qed.

(** A request that the socket layer accepts, on a host that resolves, is
    scanned to the end. *)
Lemma open_ports_completes (w : world) (host ip : string) (s e : Z) (t : float) :
  gethostbyname w host = Resolved ip ->
  (s <= e -> 0 <= s /\ e <= 65535 /\ settimeout_error t = None) ->
  port_scan_open_ports w host s e t
  = (banner_message host s e t :: GetHostByName host
       :: flat_map (probe_log ip t) (range s (e + 1)),
     inr (filter (is_open w ip t) (range s (e + 1)))).
Proof.
  intros Hres Hok. rewrite (open_ports_resolved _ _ ip) by assumption.
  destruct (Z_le_gt_dec s e) as [Hse|Hse].
  - destruct (Hok Hse) as (Hs & He & Ht).
    rewrite loop_completes; [reflexivity | exact Ht |].
    apply Forall_forall. intros p Hp. apply range_In in Hp.
    unfold port_refused. apply orb_false_iff. split; apply Z.ltb_ge; lia.
  - rewrite range_empty by lia. reflexivity.
Qed.

Lemma port_scan_returned (w : world) (host : string) (s e : Z) (t : float)
    (ports : list Z) :
  result_of (port_scan_open_ports w host s e t) = inr ports ->
  port_scan w host s e t
  = (log_of (port_scan_open_ports w host s e t)
       ++ log_of (port_scan_report ports),
     inr tt).
Proof.
  intros H. unfold port_scan.
  destruct (port_scan_open_ports w host s e t) as [log r]. simpl in *. subst r.
  simpl. destruct ports; reflexivity.
Qed.

Lemma port_scan_raised (w : world) (host : string) (s e : Z) (t : float) (x : exn) :
  result_of (port_scan_open_ports w host s e t) = inl x ->
  port_scan w host s e t
  = (log_of (port_scan_open_ports w host s e t), inl x).
Proof.
  intros H. unfold port_scan.
  destruct (port_scan_open_ports w host s e t) as [log r]. simpl in *. now subst r.
Qed.

Lemma sorted_NoDup (l : list Z) : StronglySorted Z.lt l -> NoDup l.
Proof.
  induction 1 as [|a l Hl IH Ha]; constructor; [|exact IH].
  intros Hin. rewrite Forall_forall in Ha. specialize (Ha _ Hin). lia.
Qed.

(** ** The open-port sequence *)

(** C1. For every request with [start_port <= end_port], the sequence of
    open ports that the scan hands to its report is strictly ascending,
    hence without duplicates, and each of its elements lies between
    [start_port] and [end_port]. *)
Theorem open_ports_ascending_in_range (w : world) (host : string)
    (start_port end_port : Z) (timeout : float) (open_ports : list Z) :
  start_port <= end_port ->
  result_of (port_scan_open_ports w host start_port end_port timeout)
  = inr open_ports ->
  StronglySorted Z.lt open_ports
  /\ NoDup open_ports
  /\ Forall (fun p => start_port <= p <= end_port) open_ports.
Proof.
  intros _ H. apply open_ports_returned in H.
  destruct H as (ip & _ & -> & _).
  assert (StronglySorted Z.lt
            (filter (is_open w ip timeout) (range start_port (end_port + 1))))
    as Hsorted by apply filter_sorted, range_sorted.
  split; [exact Hsorted|]. split; [now apply sorted_NoDup|].
  apply Forall_filter_keeps, Forall_forall.
  intros p Hp. apply range_In in Hp. lia.
Qed.

Lemma open_ports_ascending_in_range_witness :
  20 <= 25
  /\ result_of (port_scan_open_ports (localhost_world [25; 22; 80])
                  "localhost" 20 25 0.5%float) = inr [22; 25]
  /\ StronglySorted Z.lt [22; 25]
  /\ NoDup [22; 25]
  /\ Forall (fun p => 20 <= p <= 25) [22; 25].
Proof.
  split; [lia|]. split; [reflexivity|].
  apply (open_ports_ascending_in_range (localhost_world [25; 22; 80])
           "localhost" 20 25 0.5%float [22; 25]); [lia | reflexivity].
Defined.

(** C5. A port is in the open-port result exactly when it is a port of
    the range whose connect attempt to the resolved address, under the
    per-port time-out, returned 0; an attempt that returned an error
    indicator (refused, timed out, unreachable) or raised a socket error
    never puts its port in the result. *)
Theorem open_iff_connect_succeeds (w : world) (host : string)
    (start_port end_port : Z) (timeout : float) (open_ports : list Z) :
  result_of (port_scan_open_ports w host start_port end_port timeout)
  = inr open_ports ->
  exists target_ip,
    gethostbyname w host = Resolved target_ip
    /\ (forall port,
          In port open_ports <->
          start_port <= port <= end_port
          /\ connect w target_ip port (Some timeout) = Returns 0)
    /\ (forall port,
          connect w target_ip port (Some timeout) <> Returns 0 ->
          ~ In port open_ports).
Proof.
  intros H. apply open_ports_returned in H.
  destruct H as (ip & Hres & -> & _). exists ip. split; [exact Hres|].
  assert (forall port, is_open w ip timeout port = true
                       <-> connect w ip port (Some timeout) = Returns 0) as Hopen.
  { intros port. unfold is_open.
    destruct (connect w ip port (Some timeout)) as [errno|].
    - rewrite Z.eqb_eq. split; [now intros -> | now inversion 1].
    - split; discriminate. }
  split.
  - intros port. rewrite filter_In, range_In, Hopen.
    split; intros [Hr Hc]; (split; [lia | exact Hc]).
  - intros port Hc Hin. apply Hc. apply filter_In in Hin. now apply Hopen.
Qed.

Lemma open_iff_connect_succeeds_witness :
  exists target_ip,
    gethostbyname (localhost_world [25; 22; 80]) "localhost" = Resolved target_ip
    /\ (forall port,
          In port [22; 25] <->
          20 <= port <= 25
          /\ connect (localhost_world [25; 22; 80]) target_ip port (Some 0.5%float)
             = Returns 0)
    /\ (forall port,
          connect (localhost_world [25; 22; 80]) target_ip port (Some 0.5%float)
          <> Returns 0 ->
          ~ In port [22; 25]).
Proof.
  apply (open_iff_connect_succeeds (localhost_world [25; 22; 80])
           "localhost" 20 25 0.5%float [22; 25]).
  reflexivity.
Defined.

(** ** Observations distribute over logs *)

Lemma probes_app (l l' : list event) : probes (l ++ l') = probes l ++ probes l'.
Proof.
  induction l as [|ev l IH]; [reflexivity|].
  destruct ev; simpl; now rewrite ?IH.
Qed.

Lemma resolutions_app (l l' : list event) :
  resolutions (l ++ l') = resolutions l ++ resolutions l'.
Proof.
  induction l as [|ev l IH]; [reflexivity|].
  destruct ev; simpl; now rewrite ?IH.
Qed.

Lemma opened_app (l l' : list event) : opened (l ++ l') = (opened l + opened l')%nat.
Proof. unfold opened. now rewrite filter_app, length_app. Qed.

Lemma closed_app (l l' : list event) : closed (l ++ l') = (closed l + closed l')%nat.
Proof. unfold closed. now rewrite filter_app, length_app. Qed.

Lemma printed_app (l l' : list event) : printed (l ++ l') = printed l ++ printed l'.
Proof. apply filter_app. Qed.

Lemma probe_logs_probes (ip : string) (t : float) (ports : list Z) :
  probes (flat_map (probe_log ip t) ports) = ports.
Proof. induction ports as [|p ports IH]; simpl; now rewrite ?IH. Qed.

Lemma probe_logs_printed (ip : string) (t : float) (ports : list Z) :
  printed (flat_map (probe_log ip t) ports) = [].
Proof. induction ports as [|p ports IH]; simpl; now rewrite ?IH. Qed.


Lemma probe_logs_opened (ip : string) (t : float) (ports : list Z) :
  opened (flat_map (probe_log ip t) ports) = List.length ports
  /\ closed (flat_map (probe_log ip t) ports) = List.length ports.
Proof.
  unfold opened, closed.
  induction ports as [|p ports [IHo IHc]]; simpl; [auto|].
  now rewrite IHo, IHc.
Qed.

(** The report prints, and does nothing else. *)
Lemma report_log (ports : list Z) :
  let log := log_of (port_scan_report ports) in
  probes log = [] /\ resolutions log = [] /\ opened log = 0%nat
  /\ closed log = 0%nat /\ diagnostics log = []
  /\ (forall rest n, open_after (log ++ rest) n = open_after rest n).
Proof. destruct ports; simpl; repeat split; reflexivity. Qed.

(** The exceptions that can leave the command. *)
(** In a proof by cases on the resolver's answer [Hres], the two cases of
    a name that cannot be encoded. *)
Ltac name_refused Hres :=
  first
    [ rewrite (port_scan_refused _ _ _ _ _ UnicodeError) in *
        by (rewrite Hres; reflexivity)
    | rewrite (port_scan_refused _ _ _ _ _ TypeError) in *
        by (rewrite Hres; reflexivity) ].

Lemma port_scan_raises (w : world) (host : string) (s e : Z) (t : float) (x : exn) :
  result_of (port_scan w host s e t) = inl x ->
  x = Exit 1 \/ x = ValueError \/ x = OverflowError
  \/ x = UnicodeError \/ x = TypeError.
Proof.
  intros H.
  destruct (gethostbyname w host) as [ip|msg| |] eqn:Hres.
  - destruct (result_of (port_scan_open_ports w host s e t)) as [y|ports] eqn:E.
    + rewrite (port_scan_raised _ _ _ _ _ y) in H by assumption.
      simpl in H. inversion H; subst y; clear H.
      rewrite (open_ports_resolved _ _ ip) in E by assumption.
      destruct (for_each _ _ _) as [log r] eqn:L. simpl in E. subst r.
      right. destruct (loop_raises w ip t (range s (e + 1)) [] x); auto.
      now rewrite L.
    + rewrite (port_scan_returned _ _ _ _ _ ports) in H by assumption.
      discriminate.
  - rewrite (port_scan_unresolved _ _ msg) in H by assumption.
    left. now inversion H.
  - name_refused Hres. inversion H. auto.
  - name_refused Hres. inversion H. auto.
Qed.

(** ** Resolution *)



(** ** The report and the exit status *)



(** ** Requests outside the documented bounds *)

(** A reversed range is not rejected: the host is resolved, and the scan
    then succeeds with nothing to report. *)
Lemma reversed_range_is_scanned :
  let run := port_scan (localhost_world [80]) "localhost" 100 50 0.5%float in
  run = ([banner_message "localhost" 100 50 0.5%float;
          GetHostByName "localhost"; none_found_message], inr tt)
  /\ exit_code (result_of run) = 0
  /\ network_io (log_of run) = [GetHostByName "localhost"].
Proof. repeat split; reflexivity. Qed.

(** C2, as the code has it.  No request is rejected before network I/O:
    whatever the bounds, the first thing the scan does after its banner is
    to resolve the host.  With [start_port > end_port] no socket is opened
    and no port probed, and when the host resolves the scan returns
    normally with the "none found" line (exit status 0). *)
Theorem no_range_validation (w : world) (host : string)
    (start_port end_port : Z) (timeout : float) :
  start_port > end_port
  \/ ~ 1 <= start_port <= 65535 \/ ~ 1 <= end_port <= 65535 ->
  let run := port_scan w host start_port end_port timeout in
  (exists rest,
     log_of run = banner_message host start_port end_port timeout
                    :: GetHostByName host :: rest)
  /\ (start_port > end_port ->
      probes (log_of run) = []
      /\ opened (log_of run) = 0%nat
      /\ forall ip,
           gethostbyname w host = Resolved ip ->
           run = ([banner_message host start_port end_port timeout;
                   GetHostByName host; none_found_message], inr tt)
           /\ exit_code (result_of run) = 0).
Proof.
  intros _. cbv zeta. split.
  - destruct (gethostbyname w host) as [ip|msg| |] eqn:Hres;
      [| |name_refused Hres; simpl; eauto|name_refused Hres; simpl; eauto].
    + destruct (result_of (port_scan_open_ports w host start_port end_port timeout))
        as [x|ports] eqn:E;
        [rewrite (port_scan_raised _ _ _ _ _ x) by assumption
        |rewrite (port_scan_returned _ _ _ _ _ ports) by assumption];
        rewrite (open_ports_resolved _ _ ip) by assumption;
        destruct (for_each _ _ _) as [log r]; simpl; eauto.
    + rewrite (port_scan_unresolved _ _ msg) by assumption. simpl. eauto.
  - intros Hrev.
    destruct (gethostbyname w host) as [ip|msg| |] eqn:Hres;
      [| |name_refused Hres; repeat split; try reflexivity; discriminate
         |name_refused Hres; repeat split; try reflexivity; discriminate].
    + assert (port_scan w host start_port end_port timeout
              = ([banner_message host start_port end_port timeout;
                  GetHostByName host; none_found_message], inr tt)) as ->.
      { unfold port_scan.
        rewrite (open_ports_completes _ _ ip) by (assumption || lia).
        rewrite range_empty by lia. reflexivity. }
      repeat split; try reflexivity.
    + rewrite (port_scan_unresolved _ _ msg) by assumption.
      repeat split; try reflexivity; discriminate.
Qed.

Lemma no_range_validation_witness :
  let run := port_scan (localhost_world [80]) "localhost" 100 50 0.5%float in
  100 > 50
  /\ (exists rest,
        log_of run = banner_message "localhost" 100 50 0.5%float
                       :: GetHostByName "localhost" :: rest)
  /\ probes (log_of run) = []
  /\ exit_code (result_of run) = 0.
Proof.
  cbv zeta.
  destruct (no_range_validation (localhost_world [80]) "localhost" 100 50 0.5%float)
    as [Hfirst Hrev]; [left; lia|].
  destruct (Hrev ltac:(lia)) as (Hprobes & _ & Hres).
  destruct (Hres "127.0.0.1" eq_refl) as [_ Hexit].
  split; [lia|]. split; [exact Hfirst|]. split; [exact Hprobes | exact Hexit].
Defined.

(** ** Exhaustiveness *)

(** Past port 65535 the scan stops on [OverflowError]: ports 65536 and
    65537 of the requested range are never probed and nothing is
    reported. *)
Lemma scan_stops_past_65535 :
  let run := port_scan (localhost_world [65535]) "localhost" 65535 65537 0.5%float in
  65535 <= 65537
  /\ gethostbyname (localhost_world [65535]) "localhost" = Resolved "127.0.0.1"
  /\ run = ([banner_message "localhost" 65535 65537 0.5%float;
             GetHostByName "localhost";
             SocketOpen; Connect "127.0.0.1" 65535 (Some 0.5%float); SocketClose;
             SocketOpen; SocketClose],
            inl OverflowError)
  /\ probes (log_of run) = [65535]
  /\ count_occ Z.eq_dec (probes (log_of run)) 65537 = 0%nat.
Proof. cbv zeta. split; [lia|]. repeat split; reflexivity. Qed.

(** A negative start stops the scan at its first port, a negative
    time-out at its first socket. *)
Example scan_stops_on_negative_port :
  port_scan (localhost_world [1]) "localhost" (-1) 1 0.5%float
  = ([banner_message "localhost" (-1) 1 0.5%float; GetHostByName "localhost";
      SocketOpen; SocketClose], inl OverflowError).
Proof. reflexivity. Qed.

Example scan_stops_on_negative_timeout :
  port_scan (localhost_world [1]) "localhost" 1 2 (-0.5)%float
  = ([banner_message "localhost" 1 2 (-0.5)%float; GetHostByName "localhost";
      SocketOpen; SocketClose], inl ValueError).
Proof. reflexivity. Qed.

Example scan_stops_on_endless_timeout :
  port_scan (localhost_world [1]) "localhost" 1 2 infinity
  = ([banner_message "localhost" 1 2 infinity; GetHostByName "localhost";
      SocketOpen; SocketClose], inl OverflowError).
Proof. reflexivity. Qed.

(** A host with an empty label: the resolver's [UnicodeError] is not a
    [gaierror], and goes through [port_scan] without a diagnostic. *)
Example scan_stops_on_empty_label :
  port_scan picky_world ".example.org" 1 2 0.5%float
  = ([banner_message ".example.org" 1 2 0.5%float;
      GetHostByName ".example.org"], inl UnicodeError).
Proof. reflexivity. Qed.

(** C4, as the code has it.  For a request whose host resolves, with
    [0 <= start_port <= end_port <= 65535] and a time-out that
    [settimeout] accepts (a number, not negative, of less than 2^63
    nanoseconds), the scan is exhaustive: it attempts exactly one connection
    to each port of the range, in ascending order and whether or not a
    port was found open, and to no other port; it returns normally, and
    the report comes after the last probe.  A range of one port is one
    probe. *)
Theorem scan_is_exhaustive (w : world) (host target_ip : string)
    (start_port end_port : Z) (timeout : float) :
  gethostbyname w host = Resolved target_ip ->
  0 <= start_port -> start_port <= end_port -> end_port <= 65535 ->
  settimeout_error timeout = None ->
  let run := port_scan w host start_port end_port timeout in
  let ports := range start_port (end_port + 1) in
  result_of run = inr tt
  /\ probes (log_of run) = ports
  /\ (forall port,
        count_occ Z.eq_dec (probes (log_of run)) port
        = if (start_port <=? port) && (port <=? end_port) then 1%nat else 0%nat)
  /\ log_of run
     = banner_message host start_port end_port timeout :: GetHostByName host
         :: flat_map (probe_log target_ip timeout) ports
         ++ log_of (port_scan_report (filter (is_open w target_ip timeout) ports))
  /\ (start_port = end_port -> probes (log_of run) = [start_port]).
Proof.
  intros Hres Hs Hse He Ht. cbv zeta.
  pose proof (open_ports_completes w host target_ip start_port end_port timeout
                Hres (fun _ => conj Hs (conj He Ht))) as Hrun.
  rewrite (port_scan_returned _ _ _ _ _
             (filter (is_open w target_ip timeout) (range start_port (end_port + 1))))
    by now rewrite Hrun.
  rewrite Hrun. simpl.
  assert (probes (flat_map (probe_log target_ip timeout)
                    (range start_port (end_port + 1))
                  ++ log_of (port_scan_report
                       (filter (is_open w target_ip timeout)
                          (range start_port (end_port + 1)))))
          = range start_port (end_port + 1)) as Hprobes.
  { rewrite probes_app, probe_logs_probes.
    destruct (report_log (filter (is_open w target_ip timeout)
                            (range start_port (end_port + 1)))) as (-> & _).
    apply app_nil_r. }
  rewrite Hprobes. repeat split.
  - intros port.
    destruct ((start_port <=? port) && (port <=? end_port)) eqn:Hin.
    + apply andb_true_iff in Hin. destruct Hin as [H1 H2].
      apply Z.leb_le in H1, H2. apply range_count. lia.
    + apply count_occ_not_In. rewrite range_In. intros Hp.
      apply andb_false_iff in Hin. destruct Hin as [H|H]; apply Z.leb_gt in H; lia.
  - intros <-. apply range_single.
Qed.

Lemma scan_is_exhaustive_witness :
  let run := port_scan (localhost_world [22]) "localhost" 20 25 0.5%float in
  result_of run = inr tt
  /\ probes (log_of run) = [20; 21; 22; 23; 24; 25].
Proof.
  cbv zeta.
  destruct (scan_is_exhaustive (localhost_world [22]) "localhost" "127.0.0.1"
              20 25 0.5%float)
    as (Hret & Hprobes & _); [reflexivity | lia | lia | lia | reflexivity |].
  split; [exact Hret | exact Hprobes].
Defined.

(** ** Probe failures *)

(** The command on a host that resolves, in terms of its loop. *)
Lemma port_scan_resolved (w : world) (host ip : string) (s e : Z) (t : float) :
  gethostbyname w host = Resolved ip ->
  let loop := for_each (range s (e + 1)) (port_scan_probe w ip t) [] in
  result_of (port_scan w host s e t)
  = match result_of loop with inl x => inl x | inr _ => inr tt end
  /\ log_of (port_scan w host s e t)
     = banner_message host s e t :: GetHostByName host
         :: log_of loop
         ++ match result_of loop with
            | inl _ => []
            | inr ports => log_of (port_scan_report ports)
            end.
Proof.
  intros Hres. cbv zeta. unfold port_scan.
  rewrite (open_ports_resolved _ _ ip) by assumption.
  destruct (for_each _ _ _) as [log [x|ports]]; simpl.
  - now rewrite app_nil_r.
  - destruct ports; simpl; rewrite <- ?app_assoc; auto.
Qed.

(** C6. A connect attempt that fails (an error indicator other than 0, or
    a socket error raised by [connect_ex]) is absorbed by its probe, which
    leaves the list of open ports as it was: so for every probe whose port
    and time-out the socket layer accepts.  No socket error ever leaves
    the scan; whether the scan returns, and which ports it probes, does not
    depend on the outcome of any connect attempt; and in a scan that
    returns, a port whose attempt failed is not in the result while every
    port of the range after it is still probed. *)
Theorem probe_failures_are_absorbed (w : world) (host : string)
    (start_port end_port : Z) (timeout : float) :
  let run := port_scan w host start_port end_port timeout in
  (forall ip port open_ports,
     settimeout_error timeout = None -> 0 <= port <= 65535 ->
     connect w ip port (Some timeout) <> Returns 0 ->
     port_scan_probe w ip timeout port open_ports
     = (probe_log ip timeout port, inr open_ports))
  /\ (forall x, result_of run = inl x -> is_socket_error x = false)
  /\ (forall w',
        gethostbyname w' host = gethostbyname w host ->
        let run' := port_scan w' host start_port end_port timeout in
        result_of run' = result_of run
        /\ probes (log_of run') = probes (log_of run))
  /\ (forall ip port,
        gethostbyname w host = Resolved ip ->
        result_of run = inr tt ->
        start_port <= port <= end_port ->
        connect w ip port (Some timeout) <> Returns 0 ->
        ~ In port (filter (is_open w ip timeout) (range start_port (end_port + 1)))
        /\ result_of (port_scan_open_ports w host start_port end_port timeout)
           = inr (filter (is_open w ip timeout) (range start_port (end_port + 1)))
        /\ forall later, port <= later <= end_port ->
                         In later (probes (log_of run))).
Proof.
  cbv zeta. split; [|split; [|split]].
  - intros ip port open_ports Ht Hport Hfail.
    rewrite probe_cases.
    rewrite Ht.
    assert (port_refused port = false) as ->.
    { unfold port_refused. apply orb_false_iff. split; apply Z.ltb_ge; lia. }
    assert (is_open w ip timeout port = false) as ->; [|reflexivity].
    unfold is_open. destruct (connect w ip port (Some timeout)) as [errno|];
      [|reflexivity].
    apply Z.eqb_neq. intros ->. now apply Hfail.
  - intros x Hx. apply port_scan_raises in Hx.
    destruct Hx as [->|[->|[->|[->| ->]]]]; reflexivity.
  - intros w' Hsame.
    destruct (gethostbyname w host) as [ip|msg| |] eqn:Hres.
    3: { rewrite (port_scan_refused w _ _ _ _ UnicodeError),
           (port_scan_refused w' _ _ _ _ UnicodeError)
           by (rewrite ?Hsame, ?Hres; reflexivity).
         split; reflexivity. }
    3: { rewrite (port_scan_refused w _ _ _ _ TypeError),
           (port_scan_refused w' _ _ _ _ TypeError)
           by (rewrite ?Hsame, ?Hres; reflexivity).
         split; reflexivity. }
    + destruct (port_scan_resolved w host ip start_port end_port timeout Hres)
        as [-> ->].
      destruct (port_scan_resolved w' host ip start_port end_port timeout Hsame)
        as [-> ->].
      pose proof (loop_status w' w ip timeout (range start_port (end_port + 1)) [] [])
        as [Hstatus Hprobes].
      cbv zeta in Hstatus, Hprobes. simpl.
      rewrite !probes_app, Hprobes.
      destruct (result_of (for_each _ (port_scan_probe w' ip timeout) _)) as [x'|l'],
               (result_of (for_each _ (port_scan_probe w ip timeout) _)) as [x|l];
        simpl in Hstatus; try contradiction.
      * subst x'. split; reflexivity.
      * split; [reflexivity|].
        destruct (report_log l') as (-> & _), (report_log l) as (-> & _).
        reflexivity.
    + now rewrite (port_scan_unresolved w _ msg), (port_scan_unresolved w' _ msg).
  - intros ip port Hres Hret Hport Hfail.
    destruct (result_of (port_scan_open_ports w host start_port end_port timeout))
      as [x|ports] eqn:E.
    { rewrite (port_scan_raised _ _ _ _ _ x) in Hret by assumption. discriminate. }
    rewrite (port_scan_returned _ _ _ _ _ ports) by assumption.
    apply open_ports_returned in E. destruct E as (ip' & Hres' & -> & ->).
    rewrite Hres in Hres'. inversion Hres'; subst ip'. clear Hres'.
    split; [|split; [reflexivity|]].
    + intros Hin. apply filter_In in Hin. destruct Hin as [_ Hopen].
      unfold is_open in Hopen.
      destruct (connect w ip port (Some timeout)) as [errno|]; [|discriminate].
      apply Z.eqb_eq in Hopen. subst errno. now apply Hfail.
    + intros later Hlater. simpl.
      rewrite probes_app, probe_logs_probes. apply in_or_app. left.
      apply range_In. lia.
Qed.

Lemma probe_failures_are_absorbed_witness :
  let run := port_scan refusing_world "gateway" 22 24 0.5%float in
  port_scan_probe refusing_world "10.0.0.1" 0.5%float 23 []
  = (probe_log "10.0.0.1" 0.5%float 23, inr [])
  /\ result_of run = inr tt
  /\ probes (log_of run) = [22; 23; 24]
  /\ In 24 (probes (log_of run)).
Proof.
  cbv zeta.
  destruct (probe_failures_are_absorbed refusing_world "gateway" 22 24 0.5%float)
    as (Hprobe & _ & _ & Hcont).
  split.
  - apply Hprobe; [reflexivity | lia | discriminate].
  - split; [reflexivity|]. split; [reflexivity|].
    apply (Hcont "10.0.0.1" 23); [reflexivity | reflexivity | lia | discriminate | lia].
Defined.

(** ** Sockets *)

(** C9. A probe opens one socket and closes it, whatever way the probe
    ends: connected, refused or timed out, socket error, or an argument
    that the socket layer refuses.  So every scan, finished or not, leaves
    no socket open, closes as many sockets as it opened and opens at most
    one for each port of its range; a scan that returns has opened and
    closed one socket for each of the [end_port + 1 - start_port] ports of
    its range. *)
Theorem sockets_are_closed :
  (forall w ip timeout port open_ports,
     let log := log_of (port_scan_probe w ip timeout port open_ports) in
     opened log = 1%nat /\ closed log = 1%nat
     /\ open_after log 0 = Some 0%nat
     /\ exists calls, log = SocketOpen :: calls ++ [SocketClose]
                      /\ opened calls = 0%nat /\ closed calls = 0%nat)
  /\ (forall w host start_port end_port timeout,
        let run := port_scan w host start_port end_port timeout in
        open_after (log_of run) 0 = Some 0%nat
        /\ opened (log_of run) = closed (log_of run)
        /\ (opened (log_of run) <= Z.to_nat (end_port + 1 - start_port))%nat
        /\ (result_of run = inr tt ->
            opened (log_of run) = Z.to_nat (end_port + 1 - start_port)
            /\ closed (log_of run) = Z.to_nat (end_port + 1 - start_port))).
Proof.
  split.
  - intros w ip timeout port open_ports. cbv zeta. rewrite probe_cases.
    destruct (settimeout_error timeout);
      [|destruct (port_refused port)]; simpl;
      repeat split; try reflexivity.
    + exists []. repeat split; reflexivity.
    + exists []. repeat split; reflexivity.
    + exists [Connect ip port (Some timeout)]. repeat split; reflexivity.
  - intros w host s e t. cbv zeta.
    destruct (gethostbyname w host) as [ip|msg| |] eqn:Hres.
    3: { name_refused Hres.
         repeat split; try reflexivity; try discriminate.
         unfold opened; simpl; lia. }
    3: { name_refused Hres.
         repeat split; try reflexivity; try discriminate.
         unfold opened; simpl; lia. }
    + destruct (port_scan_resolved w host ip s e t Hres) as [Hr Hl].
      cbv zeta in Hr, Hl. rewrite Hr, Hl. clear Hr Hl.
      pose proof (loop_log w ip t (range s (e + 1)) [])
        as (Hfd & Hoc & _ & _ & _ & Hmax).
      rewrite range_length in Hmax.
      pose proof (loop_returns w ip t (range s (e + 1)) []) as Hrun.
      destruct (for_each _ _ _) as [log [x|ports]]; simpl in *.
      * rewrite app_nil_r. split.
        { rewrite <- (app_nil_r log), Hfd. reflexivity. }
        change (opened (banner_message host s e t :: GetHostByName host :: log))
          with (opened log).
        change (closed (banner_message host s e t :: GetHostByName host :: log))
          with (closed log).
        split; [exact Hoc|]. split; [lia | discriminate].
      * destruct (report_log ports) as (_ & _ & Hro & Hrc & _ & Hrfd).
        split.
        { rewrite Hfd, <- (app_nil_r (log_of _)). apply Hrfd. }
        change (opened (banner_message host s e t :: GetHostByName host
                          :: log ++ log_of (port_scan_report ports)))
          with (opened (log ++ log_of (port_scan_report ports))).
        change (closed (banner_message host s e t :: GetHostByName host
                          :: log ++ log_of (port_scan_report ports)))
          with (closed (log ++ log_of (port_scan_report ports))).
        rewrite opened_app, closed_app, Hro, Hrc, !Nat.add_0_r.
        split; [exact Hoc|]. split; [lia|]. intros _.
        specialize (Hrun ports eq_refl). inversion Hrun; subst.
        destruct (probe_logs_opened ip t (range s (e + 1))) as [-> ->].
        rewrite range_length. split; f_equal; lia.
    + rewrite (port_scan_unresolved _ _ msg) by assumption.
      repeat split; try reflexivity; try discriminate.
      unfold opened; simpl; lia.
Qed.

Lemma sockets_are_closed_witness :
  let run := port_scan (localhost_world [22]) "localhost" 20 25 0.5%float in
  open_after (log_of run) 0 = Some 0%nat
  /\ opened (log_of run) = 6%nat
  /\ closed (log_of run) = 6%nat.
Proof.
  cbv zeta.
  destruct sockets_are_closed as [_ H].
  destruct (H (localhost_world [22]) "localhost" 20 25 0.5%float)
    as (Hfd & _ & _ & Hcount).
  destruct (Hcount eq_refl) as [Ho Hc].
  split; [exact Hfd|]. split; [exact Ho | exact Hc].
Defined.

(** ** Determinism *)

(** C10. Two executions of the scan on the same request, in two worlds
    that give the host the same resolution and the ports of the range the
    same connect outcomes at the resolved address, are the same execution:
    the same list of open ports, the same status, the same log. *)
Theorem scan_is_deterministic (w1 w2 : world) (host : string)
    (start_port end_port : Z) (timeout : float) :
  gethostbyname w1 host = gethostbyname w2 host ->
  (forall ip port,
     gethostbyname w1 host = Resolved ip ->
     start_port <= port <= end_port ->
     connect w1 ip port (Some timeout) = connect w2 ip port (Some timeout)) ->
  port_scan_open_ports w1 host start_port end_port timeout
  = port_scan_open_ports w2 host start_port end_port timeout
  /\ port_scan w1 host start_port end_port timeout
     = port_scan w2 host start_port end_port timeout.
Proof.
  intros Hres Hconn.
  assert (port_scan_open_ports w1 host start_port end_port timeout
          = port_scan_open_ports w2 host start_port end_port timeout) as Heq.
  { destruct (gethostbyname w1 host) as [ip|msg| |] eqn:H1.
    - rewrite (open_ports_resolved w1 _ ip), (open_ports_resolved w2 _ ip)
        by auto.
      rewrite (loop_ext w1 w2); [reflexivity|].
      intros p Hp. apply range_In in Hp. apply Hconn; [reflexivity | lia].
    - now rewrite (open_ports_unresolved w1 _ msg), (open_ports_unresolved w2 _ msg).
    - now rewrite (open_ports_refused w1 _ _ _ _ UnicodeError),
        (open_ports_refused w2 _ _ _ _ UnicodeError)
        by (rewrite <- ?Hres, ?H1; reflexivity).
    - now rewrite (open_ports_refused w1 _ _ _ _ TypeError),
        (open_ports_refused w2 _ _ _ _ TypeError)
        by (rewrite <- ?Hres, ?H1; reflexivity). }
  split; [exact Heq|]. unfold port_scan. now rewrite Heq.
Qed.

Lemma scan_is_deterministic_witness :
  port_scan (localhost_world [22]) "localhost" 20 25 0.5%float
  = port_scan (localhost_world [8080; 22]) "localhost" 20 25 0.5%float.
Proof.
  apply (scan_is_deterministic (localhost_world [22]) (localhost_world [8080; 22])
           "localhost" 20 25 0.5%float).
  - reflexivity.
  - intros ip port _ Hport. simpl.
    destruct (Z.eqb_spec port 8080) as [->|_]; [lia | reflexivity].
Defined.

(** ** More on [port_scan]: where it stops, what it prints *)

Lemma map_seq_offset (f g : nat -> Z) (k n : nat) :
  (forall i, f (k + i)%nat = g i) ->
  map f (seq k n) = map g (seq 0 n).
Proof.
  revert k g. induction n as [|n IH]; intros k g H; [reflexivity|].
  simpl. f_equal.
  - rewrite <- (H 0%nat). f_equal. lia.
  - rewrite <- (seq_shift n 0), (map_map S g).
    apply IH. intros i. rewrite <- H. f_equal. lia.
Qed.

Lemma range_app (lo mid hi : Z) :
  lo <= mid <= hi -> range lo hi = range lo mid ++ range mid hi.
Proof.
  intros H. unfold range.
  replace (Z.to_nat (hi - lo))
    with (Z.to_nat (mid - lo) + Z.to_nat (hi - mid))%nat by lia.
  rewrite seq_app, map_app. f_equal. simpl.
  apply map_seq_offset. intros i. lia.
Qed.

Lemma range_cons (lo hi : Z) :
  lo < hi -> range lo hi = lo :: range (lo + 1) hi.
Proof.
  intros H. rewrite (range_app lo (lo + 1) hi) by lia.
  now rewrite range_single.
Qed.

Lemma loop_refused_timeout (w : world) (ip : string) (t : float) (p : Z)
    (ports acc : list Z) (e : exn) :
  settimeout_error t = Some e ->
  for_each (p :: ports) (port_scan_probe w ip t) acc
  = ([SocketOpen; SocketClose], inl e).
Proof. intros H. now rewrite loop_cons, H. Qed.

Lemma loop_refused (w : world) (ip : string) (t : float) (ports acc : list Z) :
  settimeout_error t = None ->
  Exists (fun p => port_refused p = true) ports ->
  result_of (for_each ports (port_scan_probe w ip t) acc) = inl OverflowError.
Proof.
  intros Ht H. revert acc. induction ports as [|p ports IH]; intros acc.
  - inversion H.
  - rewrite loop_cons, Ht. destruct (port_refused p) eqn:Hp; [reflexivity|].
    assert (Exists (fun p => port_refused p = true) ports) as H'.
    { inversion H; subst; [congruence | assumption]. }
    specialize (IH H' (if is_open w ip t p then acc ++ [p] else acc)).
    destruct (for_each ports _ _) as [log r]. exact IH.
Qed.

(** X1. Whether [port_scan] returns, and otherwise what stops it, is
    settled by the resolver's answer and the three numbers of the request.
    When the host does not resolve: [typer.Exit] with code 1 on
    [gaierror], and the resolver's own [UnicodeError] or [TypeError] on a
    name that it cannot encode.  When it resolves: a normal return on a
    reversed range; otherwise the exception of [settimeout] when it refuses
    the time-out ([ValueError] for [nan], a negative number or 2^63
    nanoseconds, [OverflowError] beyond 2^63 nanoseconds either way);
    otherwise [OverflowError]
    when the range leaves 0..65535; and a normal return in every other
    case. *)
Theorem port_scan_outcome (w : world) (host : string)
    (start_port end_port : Z) (timeout : float) :
  result_of (port_scan w host start_port end_port timeout)
  = match gethostbyname w host with
    | Unresolved _ => inl (Exit 1)
    | BadLabel => inl UnicodeError
    | NullByte => inl TypeError
    | Resolved _ =>
        if end_port <? start_port then inr tt
        else
          match settimeout_error timeout with
          | Some e => inl e
          | None =>
              if (start_port <? 0) || (65535 <? end_port)
              then inl OverflowError
              else inr tt
          end
    end.
Proof.
  destruct (gethostbyname w host) as [ip|msg| |] eqn:Hres;
    [| |name_refused Hres; reflexivity|name_refused Hres; reflexivity].
  - destruct (port_scan_resolved w host ip start_port end_port timeout Hres)
      as [-> _].
    destruct (Z.ltb_spec end_port start_port) as [Hrev|Hle].
    { now rewrite range_empty by lia. }
    rewrite range_cons by lia.
    destruct (settimeout_error timeout) as [x|] eqn:Ht.
    { now rewrite (loop_refused_timeout _ _ _ _ _ _ x). }
    destruct ((start_port <? 0) || (65535 <? end_port)) eqn:Hb.
    + rewrite <- range_cons by lia. rewrite loop_refused; [reflexivity | exact Ht |].
      apply Exists_exists. apply orb_true_iff in Hb.
      destruct Hb as [Hb|Hb]; apply Z.ltb_lt in Hb.
      * exists start_port. split; [apply range_In; lia|].
        unfold port_refused. apply orb_true_iff. left. now apply Z.ltb_lt.
      * exists end_port. split; [apply range_In; lia|].
        unfold port_refused. apply orb_true_iff. right. now apply Z.ltb_lt.
    + rewrite <- range_cons by lia. rewrite loop_completes; [reflexivity | exact Ht |].
      apply orb_false_iff in Hb. destruct Hb as [H1 H2].
      apply Z.ltb_ge in H1, H2.
      apply Forall_forall. intros p Hp. apply range_In in Hp.
      unfold port_refused. apply orb_false_iff. split; apply Z.ltb_ge; lia.
  - now rewrite (port_scan_unresolved _ _ msg).
Qed.

(** X2. A scan that an exception other than [typer.Exit] stops (one of
    the socket layer, or the resolver's on a name it cannot encode) has
    printed its banner and nothing else: the ports it had found open by
    then are never reported. *)
Theorem stopped_scan_reports_nothing (w : world) (host : string)
    (start_port end_port : Z) (timeout : float) (x : exn) :
  result_of (port_scan w host start_port end_port timeout) = inl x ->
  x <> Exit 1 ->
  printed (log_of (port_scan w host start_port end_port timeout))
  = [banner_message host start_port end_port timeout].
Proof.
  intros Hx Hne.
  destruct (gethostbyname w host) as [ip|msg| |] eqn:Hres;
    [| |name_refused Hres; reflexivity|name_refused Hres; reflexivity].
  - destruct (port_scan_resolved w host ip start_port end_port timeout Hres)
      as [Hr Hl].
    cbv zeta in Hr, Hl. rewrite Hr in Hx. rewrite Hl. clear Hr Hl.
    pose proof (loop_log w ip timeout (range start_port (end_port + 1)) [])
      as (_ & _ & _ & Hpr & _).
    destruct (for_each _ _ _) as [log [y|ports]]; simpl in *; [|discriminate].
    rewrite app_nil_r. unfold printed in *. simpl. now rewrite Hpr.
  - rewrite (port_scan_unresolved _ _ msg) in Hx by assumption.
    simpl in Hx. inversion Hx. congruence.
Qed.

Lemma stopped_scan_reports_nothing_witness :
  let run := port_scan (localhost_world [65535]) "localhost" 65535 65536 0.5%float in
  is_open (localhost_world [65535]) "127.0.0.1" 0.5%float 65535 = true
  /\ probes (log_of run) = [65535]
  /\ printed (log_of run) = [banner_message "localhost" 65535 65536 0.5%float].
Proof.
  cbv zeta. split; [reflexivity|]. split; [reflexivity|].
  apply (stopped_scan_reports_nothing _ _ _ _ _ OverflowError);
    [reflexivity | discriminate].
Defined.

(** X3. Scanning a range in two adjacent pieces finds what scanning it in
    one piece finds: for a host that resolves, bounds within 0..65535 and a
    time-out that [settimeout] accepts, the open ports of [start..end] are
    those of [start..mid] followed by those of [mid+1..end]. *)
Theorem adjacent_ranges_compose (w : world) (host ip : string)
    (start_port mid end_port : Z) (timeout : float) :
  gethostbyname w host = Resolved ip ->
  0 <= start_port -> end_port <= 65535 -> settimeout_error timeout = None ->
  start_port <= mid + 1 -> mid <= end_port ->
  exists low high,
    result_of (port_scan_open_ports w host start_port mid timeout) = inr low
    /\ result_of (port_scan_open_ports w host (mid + 1) end_port timeout)
       = inr high
    /\ result_of (port_scan_open_ports w host start_port end_port timeout)
       = inr (low ++ high).
Proof.
  intros Hres Hs He Ht Hlo Hhi.
  exists (filter (is_open w ip timeout) (range start_port (mid + 1))),
         (filter (is_open w ip timeout) (range (mid + 1) (end_port + 1))).
  rewrite !(open_ports_completes w host ip) by (try assumption; intros; repeat split; (lia || assumption)).
  simpl. repeat split.
  rewrite <- filter_app, <- range_app by lia. reflexivity.
Qed.

Lemma adjacent_ranges_compose_witness :
  result_of (port_scan_open_ports (localhost_world [22; 80; 443]) "localhost"
               1 500 0.5%float)
  = inr ([22; 80] ++ [443]).
Proof.
  destruct (adjacent_ranges_compose (localhost_world [22; 80; 443])
              "localhost" "127.0.0.1" 1 100 500 0.5%float)
    as (low & high & Hlow & Hhigh & Hall);
    [reflexivity | lia | lia | reflexivity | lia | lia |].
  rewrite Hall. vm_compute in Hlow, Hhigh.
  inversion Hlow. inversion Hhigh. reflexivity.
Defined.

(** X4. A scan that returns has printed its banner and then either the
    "none found" line, when no port of the range accepted a connection,
    or the "Open ports:" header followed by one line that lists, in
    ascending order and separated by ", ", the ports that did. *)
Theorem scan_report (w : world) (host : string)
    (start_port end_port : Z) (timeout : float) :
  let run := port_scan w host start_port end_port timeout in
  result_of run = inr tt ->
  exists ip,
    gethostbyname w host = Resolved ip
    /\ printed (log_of run)
       = banner_message host start_port end_port timeout
           :: match filter (is_open w ip timeout)
                      (range start_port (end_port + 1)) with
              | [] => [none_found_message]
              | found =>
                  [Echo [Str "Open ports:"] (Some GREEN) false;
                   Echo [Str (join ", " (map str found))] None false]
              end.
Proof.
  cbv zeta. intros Hret.
  destruct (result_of (port_scan_open_ports w host start_port end_port timeout))
    as [x|ports] eqn:E.
  { rewrite (port_scan_raised _ _ _ _ _ x) in Hret by assumption. discriminate. }
  rewrite (port_scan_returned _ _ _ _ _ ports) by assumption.
  apply open_ports_returned in E. destruct E as (ip & Hres & -> & ->).
  exists ip. split; [exact Hres|]. simpl.
  rewrite printed_app, probe_logs_printed. simpl.
  destruct (filter _ _); reflexivity.
Qed.

Lemma scan_report_witness :
  printed (log_of (port_scan (localhost_world [22; 80]) "localhost" 20 80 0.5%float))
  = [banner_message "localhost" 20 80 0.5%float;
     Echo [Str "Open ports:"] (Some GREEN) false;
     Echo [Str "22, 80"] None false].
Proof.
  destruct (scan_report (localhost_world [22; 80]) "localhost" 20 80 0.5%float)
    as (ip & Hres & ->); [reflexivity|].
  inversion Hres. reflexivity.
Defined.

(** ** [subdomains] *)

Lemma subdomains_try_cases (w : world) (domain sub : string)
    (found : list string) :
  subdomains_try w domain sub found
  = (lookup_log w (fqdn_of domain sub),
     match name_error (gethostbyname w (fqdn_of domain sub)) with
     | Some e => inl e
     | None =>
         inr (if resolves w (fqdn_of domain sub)
              then found ++ [fqdn_of domain sub] else found)
     end).
Proof.
  unfold subdomains_try, lookup_log, resolves, socket_gethostbyname.
  simpl. destruct (gethostbyname w (fqdn_of domain sub)); reflexivity.
Qed.

Lemma subdomains_loop (w : world) (domain : string) (words found : list string) :
  for_in words (subdomains_try w domain) found
  = (flat_map (lookup_log w) (fst (lookups w (map (fqdn_of domain) words))),
     match snd (lookups w (map (fqdn_of domain) words)) with
     | Some e => inl e
     | None =>
         inr (found ++ filter (resolves w)
                         (fst (lookups w (map (fqdn_of domain) words))))
     end).
Proof.
  revert found. induction words as [|sub words IH]; intros found; simpl.
  - now rewrite app_nil_r.
  - rewrite subdomains_try_cases.
    destruct (name_error (gethostbyname w (fqdn_of domain sub))) as [e|] eqn:E.
    + unfold lookup_log. simpl. now rewrite app_nil_r.
    + simpl. rewrite IH.
      destruct (lookups w (map (fqdn_of domain) words)) as [tried [e|]]; simpl;
        [reflexivity|].
      destruct (resolves w (fqdn_of domain sub)); simpl;
        [now rewrite <- app_assoc | reflexivity].
Qed.

Lemma lookups_all (w : world) (names : list string) :
  Forall (encodable w) names -> lookups w names = (names, None).
Proof.
  induction 1 as [|name names Hname Hnames IH]; simpl; [reflexivity|].
  unfold encodable in Hname. now rewrite Hname, IH.
Qed.

Lemma lookups_stopped (w : world) (before after : list string) (bad : string)
    (e : exn) :
  Forall (encodable w) before ->
  name_error (gethostbyname w bad) = Some e ->
  lookups w (before ++ bad :: after) = (before ++ [bad], Some e).
Proof.
  intros Hbefore Hbad.
  induction Hbefore as [|name names Hname Hnames IH]; simpl.
  - now rewrite Hbad.
  - unfold encodable in Hname. now rewrite Hname, IH.
Qed.

Lemma lookups_prefix (w : world) (names : list string) :
  exists n, fst (lookups w names) = firstn n names
            /\ (snd (lookups w names) = None -> fst (lookups w names) = names).
Proof.
  induction names as [|name names (n & IH & IHall)]; simpl.
  - exists 0%nat. split; reflexivity.
  - destruct (name_error (gethostbyname w name)).
    + exists 1%nat. split; [reflexivity | discriminate].
    + destruct (lookups w names) as [tried stop]. simpl in *.
      exists (S n). split; [now rewrite IH|]. intros H. now rewrite IHall.
Qed.

Lemma lookup_logs (w : world) (names : list string) :
  resolutions (flat_map (lookup_log w) names) = names
  /\ probes (flat_map (lookup_log w) names) = []
  /\ opened (flat_map (lookup_log w) names) = 0%nat
  /\ printed (flat_map (lookup_log w) names)
     = map resolves_line (filter (resolves w) names).
Proof.
  induction names as [|name names (IHr & IHp & IHo & IHq)]; [repeat split|].
  cbn [flat_map map].
  rewrite resolutions_app, probes_app, opened_app, printed_app, IHr, IHp, IHo, IHq.
  unfold lookup_log. simpl filter.
  destruct (resolves w name); repeat split; reflexivity.
Qed.

(** The enumeration, by the names it reaches. *)
Lemma subdomains_enumerate_run (w : world) (domain : string)
    (words : list string) :
  let tried := fst (lookups w (map (fqdn_of domain) words)) in
  subdomains_enumerate w domain words
  = match snd (lookups w (map (fqdn_of domain) words)) with
    | Some e => (flat_map (lookup_log w) tried, inl e)
    | None =>
        (flat_map (lookup_log w) tried
           ++ (if existsb (resolves w) tried then [] else [none_resolved_message]),
         inr tt)
    end.
Proof.
  cbv zeta. unfold subdomains_enumerate. rewrite subdomains_loop.
  destruct (lookups w (map (fqdn_of domain) words)) as [tried [e|]]; simpl;
    [reflexivity|].
  assert (existsb (resolves w) tried
          = match filter (resolves w) tried with [] => false | _ :: _ => true end)
    as ->.
  { induction tried as [|n names IH]; [reflexivity|].
    simpl. destruct (resolves w n); [reflexivity | exact IH]. }
  destruct (filter (resolves w) tried); simpl; [reflexivity|].
  now rewrite app_nil_r.
Qed.

(** X5. The enumeration looks the candidates [word.domain] up one by one,
    in the order of the word list, and opens no socket.  A candidate that
    fails with [gaierror] does not stop it: when the resolver can encode
    every candidate, each is looked up exactly once and the command
    returns normally, whether or not anything resolved.  The first
    candidate that the resolver cannot encode (a label that is empty or too
    long, a null byte) is the last one looked up, and its [UnicodeError] or
    [TypeError] ends the command. *)
Theorem subdomains_tries_every_candidate (w : world) (domain : string)
    (words : list string) :
  let run := subdomains_enumerate w domain words in
  let names := map (fqdn_of domain) words in
  probes (log_of run) = []
  /\ opened (log_of run) = 0%nat
  /\ (Forall (encodable w) names ->
      resolutions (log_of run) = names /\ result_of run = inr tt)
  /\ (forall before bad after e,
        names = before ++ bad :: after ->
        Forall (encodable w) before ->
        name_error (gethostbyname w bad) = Some e ->
        resolutions (log_of run) = before ++ [bad] /\ result_of run = inl e).
Proof.
  cbv zeta. rewrite subdomains_enumerate_run.
  assert (forall tried,
            probes (flat_map (lookup_log w) tried
                    ++ (if existsb (resolves w) tried
                        then [] else [none_resolved_message])) = []
            /\ opened (flat_map (lookup_log w) tried
                       ++ (if existsb (resolves w) tried
                           then [] else [none_resolved_message])) = 0%nat
            /\ resolutions (flat_map (lookup_log w) tried
                            ++ (if existsb (resolves w) tried
                                then [] else [none_resolved_message])) = tried)
    as Hreturn.
  { intros tried. destruct (lookup_logs w tried) as (Hr & Hp & Ho & _).
    rewrite probes_app, opened_app, resolutions_app, Hr, Hp, Ho.
    destruct (existsb (resolves w) tried); simpl; rewrite ?app_nil_r;
      repeat split; reflexivity. }
  repeat split.
  - destruct (lookups w (map (fqdn_of domain) words)) as [tried [e|]]; simpl.
    + now destruct (lookup_logs w tried) as (_ & Hp & _).
    + now destruct (Hreturn tried) as (Hp & _).
  - destruct (lookups w (map (fqdn_of domain) words)) as [tried [e|]]; simpl.
    + now destruct (lookup_logs w tried) as (_ & _ & Ho & _).
    + now destruct (Hreturn tried) as (_ & Ho & _).
  - rewrite (lookups_all w _ H). simpl. now destruct (Hreturn (map (fqdn_of domain) words)) as (_ & _ & Hr).
  - now rewrite (lookups_all w _ H).
  - rewrite H, (lookups_stopped w before after bad e H0 H1). simpl.
    now destruct (lookup_logs w (before ++ [bad])) as (Hr & _).
  - now rewrite H, (lookups_stopped w before after bad e H0 H1).
Qed.

Lemma subdomains_tries_every_candidate_witness :
  let run := subdomains_enumerate picky_world "example.org" ["www"; "mail"] in
  let stopped := subdomains_enumerate picky_world "example.org" ["www"; ""; "mail"] in
  (resolutions (log_of run) = ["www.example.org"; "mail.example.org"]
   /\ result_of run = inr tt)
  /\ (resolutions (log_of stopped) = ["www.example.org"; ".example.org"]
      /\ result_of stopped = inl UnicodeError).
Proof.
  cbv zeta. split.
  - destruct (subdomains_tries_every_candidate picky_world "example.org"
                ["www"; "mail"]) as (_ & _ & H & _).
    apply H. repeat constructor.
  - destruct (subdomains_tries_every_candidate picky_world "example.org"
                ["www"; ""; "mail"]) as (_ & _ & _ & H).
    apply (H ["www.example.org"] ".example.org" ["mail.example.org"]);
      [reflexivity | repeat constructor | reflexivity].
Defined.

(** X6. The enumeration prints one "-> resolves" line for each candidate
    it looked up that resolves, in the order of the word list, and nothing
    for the others.  The "No subdomains resolved" line follows exactly when
    the command returns and no candidate resolved; a command that the
    resolver's [UnicodeError] or [TypeError] stops prints nothing more. *)
Theorem subdomains_output (w : world) (domain : string) (words : list string) :
  let run := subdomains_enumerate w domain words in
  printed (log_of run)
  = map resolves_line (filter (resolves w) (resolutions (log_of run)))
      ++ match result_of run with
         | inr _ =>
             if existsb (resolves w) (map (fqdn_of domain) words)
             then [] else [none_resolved_message]
         | inl _ => []
         end.
Proof.
  cbv zeta. rewrite subdomains_enumerate_run.
  destruct (lookups_prefix w (map (fqdn_of domain) words)) as (n & _ & Hall).
  destruct (lookups w (map (fqdn_of domain) words)) as [tried [e|]]; simpl in *.
  - destruct (lookup_logs w tried) as (Hr & _ & _ & Hp).
    now rewrite Hr, Hp, app_nil_r.
  - rewrite (Hall eq_refl) in *.
    destruct (lookup_logs w (map (fqdn_of domain) words)) as (Hr & _ & _ & Hp).
    rewrite printed_app, resolutions_app, Hr, Hp.
    destruct (existsb (resolves w) (map (fqdn_of domain) words)); simpl;
      now rewrite ?app_nil_r.
Qed.





Example subdomains_run :
  subdomains_enumerate picky_world "example.org" ["www"; "mail"]
  = ([GetHostByName "www.example.org"; GetHostByName "mail.example.org";
      resolves_line "mail.example.org"], inr tt).
Proof. reflexivity. Qed.

(** ** [dns_lookup] *)

Lemma dns_lookup_fold (infos : list addrinfo) (addresses : list (string * string)) :
  fold_left dns_lookup_step infos addresses
  = addresses ++ flat_map dns_rows infos.
Proof.
  revert addresses. induction infos as [|info infos IH]; intros addresses; simpl.
  - now rewrite app_nil_r.
  - rewrite IH. unfold dns_lookup_step, dns_rows.
    destruct (ai_family info); simpl; now rewrite <- ?app_assoc.
Qed.

Lemma dns_rows_In (info : addrinfo) (label ip : string) :
  In (label, ip) (dns_rows info) <->
  (label = "A" /\ info = {| ai_family := AF_INET; ai_host := ip |})
  \/ (label = "AAAA" /\ info = {| ai_family := AF_INET6; ai_host := ip |}).
Proof.
  destruct info as [fam host]. unfold dns_rows. simpl. split.
  - destruct fam; simpl; intros H; try contradiction;
      destruct H as [H|[]]; inversion H; subst; auto.
  - intros [[-> H]|[-> H]]; inversion H; subst; now left.
Qed.

(** X8. The table of [dns_lookup] has one row for each entry of family
    [AF_INET] or [AF_INET6] that [getaddrinfo] returned, in the order of
    the entries and without merging repeated addresses: the rows carry the
    hosts of those entries, labelled "A" for [AF_INET] and "AAAA" for
    [AF_INET6]; entries of any other family give no row. *)
Theorem dns_lookup_rows (infos : list addrinfo) :
  let addresses := dns_lookup_addresses infos in
  addresses = flat_map dns_rows infos
  /\ map snd addresses = map ai_host (filter is_ip_family infos)
  /\ List.length addresses = List.length (filter is_ip_family infos)
  /\ (forall ip, In ("A", ip) addresses <->
                 In {| ai_family := AF_INET; ai_host := ip |} infos)
  /\ (forall ip, In ("AAAA", ip) addresses <->
                 In {| ai_family := AF_INET6; ai_host := ip |} infos)
  /\ Forall (fun row => fst row = "A" \/ fst row = "AAAA") addresses.
Proof.
  cbv zeta. unfold dns_lookup_addresses. rewrite dns_lookup_fold. simpl.
  split; [reflexivity|]. split; [|split; [|split; [|split]]].
  - induction infos as [|[fam host] infos IH]; [reflexivity|].
    simpl. rewrite map_app, IH. destruct fam; reflexivity.
  - induction infos as [|[fam host] infos IH]; [reflexivity|].
    simpl. rewrite length_app, IH. destruct fam; reflexivity.
  - intros ip. rewrite in_flat_map. split.
    + intros (info & Hin & Hrow). apply dns_rows_In in Hrow.
      destruct Hrow as [[_ ->]|[Hl _]]; [exact Hin | discriminate].
    + intros Hin. eexists. split; [exact Hin|]. now left.
  - intros ip. rewrite in_flat_map. split.
    + intros (info & Hin & Hrow). apply dns_rows_In in Hrow.
      destruct Hrow as [[Hl _]|[_ ->]]; [discriminate | exact Hin].
    + intros Hin. eexists. split; [exact Hin|]. now left.
  - apply Forall_forall. intros [label ip] Hin.
    apply in_flat_map in Hin. destruct Hin as (info & _ & Hrow).
    apply dns_rows_In in Hrow. simpl. tauto.
Qed.

(** X9. When [getaddrinfo] fails with [gaierror], [dns_lookup] prints the
    diagnostic, on the error stream, and exits with code 1.  When
    [getaddrinfo] cannot encode the domain (an empty or over-long label),
    its [UnicodeError] is not handled: nothing is printed and the
    exception ends the command.  When [getaddrinfo] answers, the command
    prints exactly one thing and returns normally: the table when at least
    one entry is of family [AF_INET] or [AF_INET6], and the
    "No DNS records found." line when none is, which includes the empty
    answer. *)
Theorem dns_lookup_outcome (d : dns_env) (domain : string) :
  let run := dns_lookup d domain in
  match getaddrinfo d domain with
  | LookupFails msg =>
      run = ([Echo [Str ("DNS lookup failed: " ++ msg)%string] (Some RED) true],
             inl (Exit 1))
  | LookupBadLabel => run = ([], inl UnicodeError)
  | Addresses infos =>
      result_of run = inr tt
      /\ log_of run
         = [if existsb is_ip_family infos
            then Echo [Str (tabulate d (flat_map dns_rows infos)
                              ["Record"; "IP Address"])] None false
            else Echo [Str "No DNS records found."] (Some YELLOW) false]
  end.
Proof.
  cbv zeta. unfold dns_lookup, socket_getaddrinfo.
  destruct (getaddrinfo d domain) as [infos|msg|]; [|reflexivity..].
  simpl. unfold dns_lookup_addresses. rewrite dns_lookup_fold. simpl.
  assert (existsb is_ip_family infos
          = match flat_map dns_rows infos with [] => false | _ :: _ => true end)
    as ->.
  { induction infos as [|[fam host] infos IH]; [reflexivity|].
    simpl. rewrite IH. destruct fam; reflexivity. }
  destruct (flat_map dns_rows infos); split; reflexivity.
Qed.

Example dns_lookup_run :
  dns_lookup
    {| getaddrinfo := fun _ =>
         Addresses [ {| ai_family := AF_INET; ai_host := "192.0.2.7" |};
                     {| ai_family := AF_OTHER; ai_host := "" |};
                     {| ai_family := AF_INET; ai_host := "192.0.2.7" |};
                     {| ai_family := AF_INET6; ai_host := "2001:db8::7" |} ];
       tabulate := fun rows _ =>
         join "; " (map (fun row => (fst row ++ " " ++ snd row)%string) rows) |}
    "example.org"
  = ([Echo [Str "A 192.0.2.7; A 192.0.2.7; AAAA 2001:db8::7"] None false],
     inr tt).
Proof. reflexivity. Qed.

Example dns_lookup_on_empty_label :
  dns_lookup
    {| getaddrinfo := fun _ => LookupBadLabel; tabulate := fun _ _ => "" |}
    ".example.org"
  = ([], inl UnicodeError).
Proof. reflexivity. Qed.

(** ** [caesar_cipher] *)

Lemma caesar_cipher_map (u : unicode) (text : codes) (shift : Z) :
  caesar_cipher u text shift = map (caesar_char u shift) text.
Proof.
  unfold caesar_cipher.
  assert (forall result,
            fold_left (fun result char => result ++ [caesar_char u shift char])
              text result
            = result ++ map (caesar_char u shift) text) as H.
  { induction text as [|c text IH]; intros result; simpl.
    - now rewrite app_nil_r.
    - now rewrite IH, <- app_assoc. }
  apply H.
Qed.

(** What the cipher makes of a letter is an ASCII letter of the same case. *)
Lemma caesar_char_letter (u : unicode) (shift c : Z) :
  isalpha u c = true ->
  if isupper u c then 65 <= caesar_char u shift c <= 90
  else 97 <= caesar_char u shift c <= 122.
Proof.
  intros Ha. unfold caesar_char. rewrite Ha.
  destruct (isupper u c);
    [pose proof (Z.mod_pos_bound (c - 65 + shift) 26)
    |pose proof (Z.mod_pos_bound (c - 97 + shift) 26)]; lia.
Qed.

Lemma caesar_char_compose (u : unicode) (a b c : Z) :
  ascii_letters u ->
  caesar_char u b (caesar_char u a c) = caesar_char u (a + b) c.
Proof.
  intros [Hup Hlow].
  pose proof (caesar_char_letter u a c) as Hl.
  unfold caesar_char in *.
  destruct (isalpha u c) eqn:Ha; [|now rewrite Ha].
  specialize (Hl eq_refl).
  destruct (isupper u c) eqn:Hu.
  - destruct (Hup _ Hl) as [-> ->].
    replace ((c - 65 + a) mod 26 + 65 - 65 + b)
      with ((c - 65 + a) mod 26 + b) by lia.
    rewrite Zplus_mod_idemp_l. do 2 f_equal. lia.
  - destruct (Hlow _ Hl) as [-> ->].
    replace ((c - 97 + a) mod 26 + 97 - 97 + b)
      with ((c - 97 + a) mod 26 + b) by lia.
    rewrite Zplus_mod_idemp_l. do 2 f_equal. lia.
Qed.

(** X10. Of the text of [caesar_cipher] ([security.py] does not load as
    shipped): two passes of the cipher are one pass with the sum of the
    shifts, on every text. *)
Theorem caesar_composes (u : unicode) (text : codes) (a b : Z) :
  ascii_letters u ->
  caesar_cipher u (caesar_cipher u text a) b = caesar_cipher u text (a + b).
Proof.
  intros Hu. rewrite !caesar_cipher_map, map_map.
  apply map_ext. intros c. now apply caesar_char_compose.
Qed.

Lemma latin1_unicode_letters : ascii_letters latin1_unicode.
Proof.
  split; intros c Hc; unfold latin1_unicode, between; cbn [isalpha isupper].
  - assert ((65 <=? c) = true) as -> by (apply Z.leb_le; lia).
    assert ((c <=? 90) = true) as -> by (apply Z.leb_le; lia).
    split; reflexivity.
  - assert ((97 <=? c) = true) as -> by (apply Z.leb_le; lia).
    assert ((c <=? 122) = true) as -> by (apply Z.leb_le; lia).
    assert ((c <=? 90) = false) as -> by (apply Z.leb_gt; lia).
    assert ((192 <=? c) = false) as -> by (apply Z.leb_gt; lia).
    assert ((216 <=? c) = false) as -> by (apply Z.leb_gt; lia).
    rewrite !andb_false_r, !andb_false_l. split; [|reflexivity].
    now rewrite orb_true_r.
Qed.

(** The text is "Hi!" followed by the letter of code point 233. *)
Lemma caesar_composes_witness :
  caesar_cipher latin1_unicode (caesar_cipher latin1_unicode [72; 105; 33; 233] 3) 30
  = caesar_cipher latin1_unicode [72; 105; 33; 233] (3 + 30).
Proof. apply caesar_composes, latin1_unicode_letters. Defined.

(** The letter of code point 233, a lower-case letter outside ASCII, is
    enciphered as if it were counted from [a], and does not come back. *)
Example caesar_outside_ascii :
  caesar_cipher latin1_unicode [72; 105; 33; 233] 3 = [75; 108; 33; 106]
  /\ caesar_cipher latin1_unicode [75; 108; 33; 106] (- 3) = [72; 105; 33; 103].
Proof. split; reflexivity. Qed.

Lemma caesar_char_zero (u : unicode) (c : Z) :
  ascii_letters u ->
  caesar_char u 0 c = c <-> (isalpha u c = true -> is_ascii_letter c).
Proof.
  intros [Hup Hlow]. split.
  - intros H Ha. pose proof (caesar_char_letter u 0 c Ha) as Hl.
    rewrite H in Hl. unfold is_ascii_letter.
    destruct (isupper u c); [now left | now right].
  - intros H. unfold caesar_char.
    destruct (isalpha u c) eqn:Ha; [|reflexivity].
    destruct (H eq_refl) as [Hc|Hc].
    + destruct (Hup _ Hc) as [_ ->]. rewrite Z.add_0_r, Z.mod_small; lia.
    + destruct (Hlow _ Hc) as [_ ->]. rewrite Z.add_0_r, Z.mod_small; lia.
Qed.

(** X11. Of the text of [caesar_cipher] ([security.py] does not load as
    shipped): deciphering with the opposite shift gives the text back
    exactly when every letter of the text is an ASCII letter; a letter
    outside A-Z and a-z comes back as an ASCII letter, so not as itself. *)
Theorem caesar_round_trip (u : unicode) (text : codes) (shift : Z) :
  ascii_letters u ->
  caesar_cipher u (caesar_cipher u text shift) (- shift) = text
  <-> Forall (fun c => isalpha u c = true -> is_ascii_letter c) text.
Proof.
  intros Hu. rewrite !caesar_cipher_map, map_map.
  rewrite (map_ext _ (caesar_char u 0))
    by (intros c; rewrite caesar_char_compose by assumption; f_equal; lia).
  induction text as [|c text IH]; simpl.
  - split; [constructor | reflexivity].
  - split.
    + intros H. inversion H as [[Hc Ht]]. rewrite Hc, Ht. constructor.
      * now apply (caesar_char_zero u c Hu).
      * now apply IH.
    + intros H. inversion H as [|? ? Hc Ht]; subst. f_equal.
      * now apply (caesar_char_zero u c Hu).
      * now apply IH.
Qed.

Lemma caesar_round_trip_witness :
  caesar_cipher latin1_unicode
    (caesar_cipher latin1_unicode [72; 101; 108; 108; 111; 44; 32; 90] 3) (- 3)
  = [72; 101; 108; 108; 111; 44; 32; 90].
Proof.
  apply (caesar_round_trip latin1_unicode _ 3 latin1_unicode_letters).
  repeat (apply Forall_cons;
          [unfold is_ascii_letter; intros H;
           try (vm_compute in H; discriminate H); lia|]).
  apply Forall_nil.
Defined.

(** X12. Of the text of [caesar_cipher] ([security.py] does not load as
    shipped): the cipher keeps the length of the text and every character
    that is not a letter, in place; a letter becomes an ASCII letter,
    upper-case if it was upper-case and lower-case otherwise, whatever the
    shift, negative shifts included. *)
Theorem caesar_output (u : unicode) (text : codes) (shift : Z) :
  Forall2
    (fun c out =>
       if isalpha u c
       then if isupper u c then 65 <= out <= 90 else 97 <= out <= 122
       else out = c)
    text (caesar_cipher u text shift)
  /\ List.length (caesar_cipher u text shift) = List.length text.
Proof.
  rewrite caesar_cipher_map, length_map. split; [|reflexivity].
  induction text as [|c text IH]; simpl; constructor; [|exact IH].
  destruct (isalpha u c) eqn:Ha.
  - now apply caesar_char_letter.
  - unfold caesar_char. now rewrite Ha.
Qed.

(** X13. Of the text of [caesar_cipher] ([security.py] does not load as
    shipped): shifts that differ by a multiple of 26 give the same text. *)
Theorem caesar_period (u : unicode) (text : codes) (shift turns : Z) :
  caesar_cipher u text (shift + 26 * turns) = caesar_cipher u text shift.
Proof.
  rewrite !caesar_cipher_map. apply map_ext. intros c.
  unfold caesar_char. destruct (isalpha u c); [|reflexivity].
  f_equal. rewrite Z.add_assoc, (Z.mul_comm 26 turns).
  now rewrite Z.mod_add by lia.
Qed.

(** ** [check_password] *)

Lemma check_password_score_sum (u : unicode) (password : codes) :
  fst (check_password_score u password)
  = Z.b2z (8 <=? Z.of_nat (List.length password))
    + Z.b2z (existsb (islower u) password)
    + Z.b2z (existsb (isupper u) password)
    + Z.b2z (existsb (isdigit u) password)
    + Z.b2z (existsb in_punctuation password).
Proof.
  unfold check_password_score.
  destruct (8 <=? _), (existsb (islower u) _), (existsb (isupper u) _),
           (existsb (isdigit u) _), (existsb in_punctuation _); reflexivity.
Qed.

(** X14. Of the text of [check_password] ([security.py] does not load as
    shipped): the score counts the tests that pass and the suggestions are
    those of the tests that fail: score and number of suggestions add up
    to 5, so the score is between 0 and 5 and always has its label in
    [levels] (the default of the look-up is never used). *)
Theorem score_and_suggestions (u : unicode) (password : codes) :
  let (score, feedback) := check_password_score u password in
  score + Z.of_nat (List.length feedback) = 5
  /\ 0 <= score <= 5
  /\ dict_get levels score = Some (level_of score).
Proof.
  unfold check_password_score.
  destruct (8 <=? _), (existsb (islower u) _), (existsb (isupper u) _),
           (existsb (isdigit u) _), (existsb in_punctuation _);
    simpl; repeat split; lia.
Qed.

Lemma feedback_empty (u : unicode) (password : codes) :
  snd (check_password_score u password) = []
  <-> (8 <=? Z.of_nat (List.length password))
      && existsb (islower u) password && existsb (isupper u) password
      && existsb (isdigit u) password && existsb in_punctuation password
      = true.
Proof.
  unfold check_password_score.
  destruct (8 <=? _), (existsb (islower u) _), (existsb (isupper u) _),
           (existsb (isdigit u) _), (existsb in_punctuation _);
    simpl; split; intros H; try discriminate; reflexivity.
Qed.

Lemma score_plus_feedback (u : unicode) (password : codes) :
  fst (check_password_score u password)
  + Z.of_nat (List.length (snd (check_password_score u password))) = 5
  /\ 0 <= fst (check_password_score u password) <= 5.
Proof.
  unfold check_password_score.
  destruct (8 <=? _), (existsb (islower u) _), (existsb (isupper u) _),
           (existsb (isdigit u) _), (existsb in_punctuation _);
    simpl; lia.
Qed.

Lemma level_strong (score : Z) :
  0 <= score <= 5 ->
  level_of score = (Fore_GREEN ++ "Strong" ++ Style_RESET_ALL)%string
  <-> score = 5.
Proof.
  intros H.
  assert (score = 0 \/ score = 1 \/ score = 2 \/ score = 3 \/ score = 4
          \/ score = 5) as Hcases by lia.
  destruct Hcases as [->|[->|[->|[->|[->| ->]]]]];
    split; intros Heq; try lia; try reflexivity;
    vm_compute in Heq; discriminate.
Qed.

Lemma in_punctuation_In (c : Z) : in_punctuation c = true <-> In c punctuation.
Proof.
  unfold in_punctuation. rewrite existsb_exists. split.
  - intros (x & Hx & Heq). apply Z.eqb_eq in Heq. now subst.
  - intros H. exists c. split; [exact H | apply Z.eqb_refl].
Qed.

(** X15. Of the text of [check_password] ([security.py] does not load as
    shipped): a password is rated "Strong", with no suggestion, exactly
    when it has at least 8 characters and among them a lower-case letter,
    an upper-case letter, a digit and a punctuation character. *)
Theorem strong_password (u : unicode) (password : codes) :
  let score := fst (check_password_score u password) in
  let feedback := snd (check_password_score u password) in
  ((8 <= Z.of_nat (List.length password)
    /\ (exists c, In c password /\ islower u c = true)
    /\ (exists c, In c password /\ isupper u c = true)
    /\ (exists c, In c password /\ isdigit u c = true)
    /\ (exists c, In c password /\ In c punctuation))
   <-> feedback = [])
  /\ (feedback = [] <->
      level_of score = (Fore_GREEN ++ "Strong" ++ Style_RESET_ALL)%string).
Proof.
  cbv zeta. split.
  - rewrite feedback_empty, !andb_true_iff, !existsb_exists, Z.leb_le.
    split.
    + intros (H1 & H2 & H3 & H4 & c & Hc & Hp). repeat split; auto.
      exists c. split; [exact Hc | now apply in_punctuation_In].
    + intros ((((H1 & H2) & H3) & H4) & c & Hc & Hp). repeat split; auto.
      exists c. split; [exact Hc | now apply in_punctuation_In].
  - pose proof (score_plus_feedback u password) as H.
    destruct (check_password_score u password) as [score feedback].
    destruct H as (Hsum & Hrange). simpl in Hsum, Hrange |- *.
    rewrite (level_strong score Hrange).
    split.
    + intros ->. simpl in Hsum. lia.
    + intros ->. destruct feedback; [reflexivity | cbn [List.length] in Hsum; lia].
Qed.

(** X16. Of the text of [check_password] ([security.py] does not load as
    shipped): adding characters to a password never lowers its score. *)
Theorem longer_password_scores_higher (u : unicode) (password more : codes) :
  fst (check_password_score u password)
  <= fst (check_password_score u (password ++ more)).
Proof.
  rewrite !check_password_score_sum, !existsb_app, length_app.
  assert (Z.b2z (8 <=? Z.of_nat (List.length password))
          <= Z.b2z (8 <=? Z.of_nat (List.length password + List.length more)))
    as Hlen.
  { destruct (Z.leb_spec 8 (Z.of_nat (List.length password)));
      destruct (Z.leb_spec 8 (Z.of_nat (List.length password + List.length more)));
      simpl; lia. }
  assert (forall a b, Z.b2z a <= Z.b2z (a || b)) as Hor.
  { intros [] []; simpl; lia. }
  pose proof (Hor (existsb (islower u) password) (existsb (islower u) more)).
  pose proof (Hor (existsb (isupper u) password) (existsb (isupper u) more)).
  pose proof (Hor (existsb (isdigit u) password) (existsb (isdigit u) more)).
  pose proof (Hor (existsb in_punctuation password) (existsb in_punctuation more)).
  lia.
Qed.

(** X17. Of the text of [check_password] ([security.py] does not load as
    shipped): the command returns normally, having printed, all on the
    standard output and without a colour of [typer]'s, first the line
    "Score: s/5 -> label", with the score and its label from [levels],
    and then, when the score is below 5, the line "Suggestions:" followed
    by one bulleted line for each failed test, in the order of the tests:
    1 line for a score of 5, 7 - score lines otherwise. *)
Theorem check_password_lines (u : unicode) (password : codes) :
  let run := check_password u password in
  let score := fst (check_password_score u password) in
  let feedback := snd (check_password_score u password) in
  result_of run = inr tt
  /\ log_of run
     = Echo [Str ("Score: " ++ str score ++ "/5 -> " ++ level_of score)%string]
         None false
       :: match feedback with
          | [] => []
          | _ :: _ =>
              Echo [Str "Suggestions:"] None false
              :: map (fun msg => Echo [Str ("  • " ++ msg)%string] None false)
                   feedback
          end
  /\ printed (log_of run) = log_of run
  /\ Z.of_nat (List.length (log_of run)) = if score =? 5 then 1 else 7 - score.
Proof.
  cbv zeta. unfold check_password, check_password_score.
  destruct (8 <=? _), (existsb (islower u) _), (existsb (isupper u) _),
           (existsb (isdigit u) _), (existsb in_punctuation _);
    repeat split; reflexivity.
Qed.

Example check_password_run :
  check_password latin1_unicode [97; 98; 99; 49; 50; 51]
  = ([Echo [Str ("Score: 2/5 -> " ++ Fore_YELLOW ++ "Weak" ++ Style_RESET_ALL)%string]
        None false;
      Echo [Str "Suggestions:"] None false;
      Echo [Str "  • Make it at least 8 characters."] None false;
      Echo [Str "  • Add some uppercase letters."] None false;
      Echo [Str "  • Include special characters."] None false],
     inr tt).
Proof. reflexivity. Qed.

(** ** [generate_password] *)

Lemma string_of_codes_length (s : codes) :
  String.length (string_of_codes s) = List.length s.
Proof. induction s as [|c s IH]; simpl; [reflexivity | now rewrite IH]. Qed.

Lemma password_alphabet_In (include_upper include_digits include_symbols : bool)
    (c : Z) :
  In c (password_alphabet include_upper include_digits include_symbols)
  <-> 97 <= c <= 122
      \/ (include_upper = true /\ 65 <= c <= 90)
      \/ (include_digits = true /\ 48 <= c <= 57)
      \/ (include_symbols = true /\ In c punctuation).
Proof.
  unfold password_alphabet, ascii_lowercase, ascii_uppercase, digits.
  destruct include_upper, include_digits, include_symbols;
    rewrite ?in_app_iff, !range_In; intuition (try discriminate; try lia).
Qed.

(** X18. Of the text of [generate_password] ([security.py] does not load
    as shipped): the command refuses a length that is not positive with
    one message and exit code 1, before drawing anything.  For a positive
    length it returns normally after printing one line, the password: it
    has exactly [length] characters, each of them a lower-case ASCII
    letter or a character of a class that was asked for (upper-case
    letters, digits, punctuation), never one of a class that was switched
    off. *)
Theorem generate_password_outcome (randbelow : nat -> nat -> nat) (length : Z)
    (include_upper include_digits include_symbols : bool) :
  (forall i n, (0 < n)%nat -> (randbelow i n < n)%nat) ->
  let run := generate_password randbelow length
               include_upper include_digits include_symbols in
  (length <= 0 ->
   run = ([Echo [Str "Password length must be positive."] (Some RED) false],
          inl (Exit 1)))
  /\ (0 < length ->
      exists password,
        run = ([Echo [Str (string_of_codes password)] None false], inr tt)
        /\ Z.of_nat (List.length password) = length
        /\ Z.of_nat (String.length (string_of_codes password)) = length
        /\ Forall (fun c =>
                     97 <= c <= 122
                     \/ (include_upper = true /\ 65 <= c <= 90)
                     \/ (include_digits = true /\ 48 <= c <= 57)
                     \/ (include_symbols = true /\ In c punctuation))
             password).
Proof.
  intros Hrand. cbv zeta. unfold generate_password. split.
  - intros H. apply Z.leb_le in H. now rewrite H.
  - intros H. apply Z.leb_gt in H. rewrite H.
    destruct (password_alphabet include_upper include_digits include_symbols)
      as [|a alphabet] eqn:E.
    { assert (In 97 (password_alphabet include_upper include_digits
                       include_symbols)) as Hin
        by (apply password_alphabet_In; left; lia).
      rewrite E in Hin. destruct Hin. }
    rewrite <- E. eexists. split; [reflexivity|].
    rewrite string_of_codes_length, length_map, length_seq.
    apply Z.leb_gt in H. split; [lia|]. split; [lia|].
    apply Forall_forall. intros c Hc.
    apply in_map_iff in Hc. destruct Hc as (i & <- & _).
    apply password_alphabet_In. unfold choice. apply nth_In, Hrand.
    rewrite E. simpl. lia.
Qed.

Lemma generate_password_outcome_witness :
  generate_password (fun i n => (7 * i + 3) mod n)%nat 6 false true false
  = ([Echo [Str "dkry5c"] None false], inr tt).
Proof.
  destruct (generate_password_outcome (fun i n => (7 * i + 3) mod n)%nat 6
              false true false) as [_ H].
  - intros i n Hn. apply Nat.mod_upper_bound. lia.
  - destruct (H ltac:(lia)) as (password & Hrun & _). reflexivity.
Defined.

(** X19. Of the text of [generate_password] ([security.py] does not load
    as shipped): the alphabet is never empty, whatever
    the three switches: the lower-case letters are always in it.  So the
    "No character classes selected." exit is never taken. *)
Theorem generate_password_classes (randbelow : nat -> nat -> nat) (length : Z)
    (include_upper include_digits include_symbols : bool) :
  let run := generate_password randbelow length
               include_upper include_digits include_symbols in
  incl ascii_lowercase
    (password_alphabet include_upper include_digits include_symbols)
  /\ ~ In (Echo [Str "No character classes selected."] (Some RED) false)
         (log_of run).
Proof.
  cbv zeta. split.
  - intros c Hc. apply password_alphabet_In. left.
    unfold ascii_lowercase in Hc. apply range_In in Hc. lia.
  - unfold generate_password.
    destruct (length <=? 0); [simpl; intros [H|[]]; discriminate|].
    destruct (password_alphabet include_upper include_digits include_symbols)
      as [|a alphabet] eqn:E.
    + assert (In 97 (password_alphabet include_upper include_digits
                       include_symbols)) as Hin
        by (apply password_alphabet_In; left; lia).
      rewrite E in Hin. destruct Hin.
    + simpl. intros [H|[]]. discriminate.
Qed.

(** ** [todo] *)

Example todo_session :
  let d1 := then_holds (writable Absent)
              (snd (todo ascii_lib (writable Absent) "add" (Some "buy milk"))) in
  let d2 := then_holds d1 (snd (todo ascii_lib d1 "ADD" (Some "call home"))) in
  let d3 := then_holds d2 (snd (todo ascii_lib d2 "add" (Some "pay rent"))) in
  fst (todo ascii_lib d3 "list" None)
  = ([Echo [Str "1. buy milk"] None false;
      Echo [Str "2. call home"] None false;
      Echo [Str "3. pay rent"] None false], inr tt)
  /\ todo ascii_lib d3 "remove" (Some "2")
     = (([Echo [Str "Removed: call home"] (Some GREEN) false], inr tt),
        Json (PyList [Text "buy milk"; Text "pay rent"]))
  /\ todo ascii_lib d3 "remove" (Some "0")
     = (([Echo [Str "Removed: pay rent"] (Some GREEN) false], inr tt),
        Json (PyList [Text "buy milk"; Text "call home"]))
  /\ todo ascii_lib d3 "remove" (Some "4")
     = (([Echo [Str "Invalid task number."] (Some RED) false], inr tt), file d3)
  /\ todo ascii_lib d3 "remove" (Some "9223372036854775809")
     = (([], inl OverflowError), file d3)
  /\ todo ascii_lib d3 "remove" (Some "-")
     = (([Echo [Str "Invalid task number."] (Some RED) false], inr tt), file d3).
Proof. repeat split; reflexivity. Qed.

(** A file that holds a JSON document other than a list *)
Example todo_on_other_documents :
  let object := writable (Json (PyDict ["a"; "b"])) in
  let number := writable (Json (PyScalar true)) in
  let null := writable (Json (PyScalar false)) in
  todo ascii_lib object "add" (Some "buy milk")
  = (([], inl AttributeError), file object)
  /\ todo ascii_lib object "remove" (Some "1") = (([], inl KeyError), file object)
  /\ fst (todo ascii_lib object "list" None)
     = ([Echo [Str "1. a"] None false; Echo [Str "2. b"] None false], inr tt)
  /\ todo ascii_lib number "list" None = (([], inl TypeError), file number)
  /\ todo ascii_lib number "remove" (Some "1")
     = (([], inl AttributeError), file number)
  /\ fst (todo ascii_lib null "list" None)
     = ([Echo [Str "No tasks."] (Some YELLOW) false], inr tt)
  /\ todo ascii_lib null "add" (Some "buy milk")
     = (([], inl AttributeError), file null).
Proof. repeat split; reflexivity. Qed.

(** A file that cannot be written *)
Example todo_on_read_only_file :
  let d := read_only (Json (PyList [Text "buy milk"])) in
  todo ascii_lib d "add" (Some "call home") = (([], inl OSError), file d)
  /\ todo ascii_lib d "remove" (Some "1") = (([], inl OSError), file d).
Proof. split; reflexivity. Qed.

Lemma echo_loop {A} (f : A -> fstring) (items : list A) :
  for_in items (fun item _ => echo (f item)) tt
  = (map (fun item => Echo (f item) None false) items, inr tt).
Proof.
  induction items as [|x items IH]; [reflexivity|].
  simpl. rewrite IH. reflexivity.
Qed.

Lemma combine_append {A B} (l1 l2 : list A) (m1 m2 : list B) :
  List.length l1 = List.length m1 ->
  combine (l1 ++ l2) (m1 ++ m2) = combine l1 m1 ++ combine l2 m2.
Proof.
  revert m1. induction l1 as [|a l1 IH]; intros [|b m1] H;
    try discriminate; [reflexivity|].
  simpl. f_equal. apply IH. now inversion H.
Qed.

Lemma enumerate_app {A} (items : list A) (x : A) (start : Z) :
  enumerate (items ++ [x]) start
  = enumerate items start ++ [(start + Z.of_nat (List.length items), x)].
Proof.
  unfold enumerate. rewrite length_app. simpl.
  rewrite (range_app start (start + Z.of_nat (List.length items))) by lia.
  rewrite combine_append by (rewrite range_length; lia).
  replace (start + Z.of_nat (List.length items + 1))
    with (start + Z.of_nat (List.length items) + 1) by lia.
  now rewrite range_single.
Qed.

Lemma list_pop_in_range {A} (l : list A) (i : Z) :
  - ssize_max - 1 <= i <= ssize_max ->
  list_pop l i
  = let n := Z.of_nat (List.length l) in
    let i := if i <? 0 then i + n else i in
    if (i <? 0) || (n <=? i) then PopIndexError
    else
      match nth_error l (Z.to_nat i) with
      | Some x => Popped x (firstn (Z.to_nat i) l ++ skipn (S (Z.to_nat i)) l)
      | None => PopIndexError
      end.
Proof.
  intros H. unfold list_pop.
  assert ((i <? - ssize_max - 1) = false) as -> by (apply Z.ltb_ge; lia).
  assert ((ssize_max <? i) = false) as -> by (apply Z.ltb_ge; lia).
  reflexivity.
Qed.

Lemma list_pop_overflow {A} (l : list A) (i : Z) :
  i < - ssize_max - 1 \/ ssize_max < i -> list_pop l i = PopOverflowError.
Proof.
  intros H. unfold list_pop.
  destruct (Z.ltb_spec i (- ssize_max - 1)); [reflexivity|].
  assert ((ssize_max <? i) = true) as -> by (apply Z.ltb_lt; lia).
  reflexivity.
Qed.

Lemma list_pop_inside {A} (l : list A) (i : Z) :
  0 <= i < Z.of_nat (List.length l) ->
  i <= ssize_max ->
  exists x,
    nth_error l (Z.to_nat i) = Some x
    /\ list_pop l i
       = Popped x (firstn (Z.to_nat i) l ++ skipn (S (Z.to_nat i)) l).
Proof.
  intros H Hmax. rewrite list_pop_in_range by (unfold ssize_max in *; lia).
  cbv zeta.
  assert ((i <? 0) = false) as -> by (apply Z.ltb_ge; lia).
  assert ((i <? 0) = false) as -> by (apply Z.ltb_ge; lia).
  assert ((Z.of_nat (List.length l) <=? i) = false) as -> by (apply Z.leb_gt; lia).
  simpl. destruct (nth_error l (Z.to_nat i)) as [x|] eqn:E.
  - now exists x.
  - apply nth_error_None in E. lia.
Qed.

Lemma list_pop_from_end {A} (l : list A) (i : Z) :
  - Z.of_nat (List.length l) <= i < 0 ->
  Z.of_nat (List.length l) <= ssize_max ->
  list_pop l i = list_pop l (i + Z.of_nat (List.length l)).
Proof.
  intros H Hmax.
  rewrite !list_pop_in_range by (unfold ssize_max in *; lia). cbv zeta.
  assert ((i <? 0) = true) as Hneg by (apply Z.ltb_lt; lia).
  assert ((i + Z.of_nat (List.length l) <? 0) = false) as Hpos
    by (apply Z.ltb_ge; lia).
  rewrite Hneg, !Hpos. reflexivity.
Qed.

Lemma list_pop_outside {A} (l : list A) (i : Z) :
  i < - Z.of_nat (List.length l) \/ Z.of_nat (List.length l) <= i ->
  - ssize_max - 1 <= i <= ssize_max ->
  list_pop l i = PopIndexError.
Proof.
  intros H Hrange. rewrite list_pop_in_range by exact Hrange. cbv zeta.
  destruct (Z.ltb_spec i 0).
  - assert ((i + Z.of_nat (List.length l) <? 0) = true) as ->
      by (apply Z.ltb_lt; lia).
    reflexivity.
  - assert ((i <? 0) = false) as -> by (apply Z.ltb_ge; lia).
    assert ((Z.of_nat (List.length l) <=? i) = true) as ->
      by (apply Z.leb_le; lia).
    reflexivity.
Qed.

Lemma given_nonempty (text : string) : text <> "" -> given (Some text) = Some text.
Proof.
  intros H. unfold given, nonempty.
  apply String.eqb_neq in H. now rewrite H.
Qed.

Lemma todo_add (lib : str_lib) (d : disk) (action text : string)
    (tasks : list element) :
  lower lib action = "add" ->
  text <> "" ->
  _load_todo d = PyList tasks ->
  todo lib d action (Some text)
  = saved_with d (tasks ++ [Text text]) "Task added.".
Proof.
  intros Hact Htext Hload. unfold todo, saved_with, _save_todo.
  rewrite Hact, (given_nonempty text Htext), Hload. simpl.
  destruct (write_text d (tasks ++ [Text text])); reflexivity.
Qed.

Lemma todo_remove (lib : str_lib) (d : disk) (action item : string)
    (number : Z) (tasks : list element) :
  lower lib action = "remove" ->
  item <> "" ->
  int_of_str lib item = Some number ->
  _load_todo d = PyList tasks ->
  todo lib d action (Some item)
  = match list_pop tasks (number - 1) with
    | PopOverflowError => (([], inl OverflowError), file d)
    | PopIndexError =>
        (([Echo [Str "Invalid task number."] (Some RED) false], inr tt), file d)
    | Popped removed rest =>
        saved_with d rest ("Removed: " ++ str_of removed)
    end.
Proof.
  intros Hact Hitem Hint Hload. unfold todo, saved_with, _save_todo.
  rewrite Hact, (given_nonempty item Hitem), Hint, Hload. simpl.
  destruct (list_pop tasks (number - 1)) as [removed rest| |]; try reflexivity.
  destruct (write_text d rest); reflexivity.
Qed.

Lemma todo_list (lib : str_lib) (d : disk) (action : string)
    (item : option string) (tasks : list element) :
  lower lib action = "list" ->
  _load_todo d = PyList tasks ->
  tasks <> [] ->
  todo lib d action item
  = ((map task_line (enumerate (map str_of tasks) 1), inr tt), file d).
Proof.
  intros Hact Hload Htasks. unfold todo. rewrite Hact, Hload. simpl String.eqb.
  cbv iota.
  assert (truth (PyList tasks) = true) as ->
    by (destruct tasks; [contradiction | reflexivity]).
  simpl negb. cbv iota. simpl iterate. cbv iota.
  rewrite (echo_loop (fun entry => [Str (str (fst entry) ++ ". " ++ snd entry)%string])).
  reflexivity.
Qed.

(** X20. On a to-do file that is absent, unreadable or holds a list,
    [add] with a task that is not empty, when the file can be written,
    reports "Task added." and leaves in the file the elements it held
    before (none if it was absent or unreadable) followed by the new task;
    [list] then prints the lines it printed before followed by the new
    task under the next number. *)
Theorem todo_add_then_list (lib : str_lib) (d : disk)
    (add_action list_action text : string) (item : option string)
    (tasks : list element) :
  lower lib add_action = "add" ->
  lower lib list_action = "list" ->
  text <> "" ->
  _load_todo d = PyList tasks ->
  write_text d (tasks ++ [Text text]) = Written ->
  let run := todo lib d add_action (Some text) in
  fst run = ([Echo [Str "Task added."] (Some GREEN) false], inr tt)
  /\ snd run = Json (PyList (tasks ++ [Text text]))
  /\ fst (todo lib (then_holds d (snd run)) list_action item)
     = (map task_line (enumerate (map str_of tasks) 1)
          ++ [task_line (Z.of_nat (List.length tasks) + 1, text)],
        inr tt).
Proof.
  intros Hadd Hlist Htext Hload Hwrite. cbv zeta.
  rewrite (todo_add lib d add_action text tasks Hadd Htext Hload).
  unfold saved_with. rewrite Hwrite. simpl fst. simpl snd.
  split; [reflexivity|]. split; [reflexivity|].
  rewrite (todo_list lib (then_holds d (Json (PyList (tasks ++ [Text text]))))
             list_action item (tasks ++ [Text text]) Hlist eq_refl)
    by (destruct tasks; discriminate).
  simpl fst.
  rewrite map_app. cbn [map str_of].
  rewrite enumerate_app, map_app, length_map, (Z.add_comm 1).
  reflexivity.
Qed.

Lemma todo_add_then_list_witness :
  let d := writable (Json (PyList [Text "buy milk"])) in
  fst (todo ascii_lib
         (then_holds d (snd (todo ascii_lib d "add" (Some "call home"))))
         "list" None)
  = ([Echo [Str "1. buy milk"] None false; Echo [Str "2. call home"] None false],
     inr tt).
Proof.
  cbv zeta.
  destruct (todo_add_then_list ascii_lib
              (writable (Json (PyList [Text "buy milk"])))
              "add" "list" "call home" None [Text "buy milk"])
    as (_ & _ & H);
    [reflexivity | reflexivity | discriminate | reflexivity | reflexivity |].
  exact H.
Defined.

(** X21. On a to-do file that is absent, unreadable or holds a list (of a
    length that a list can have), [remove] with a number from 1 to the
    number of elements takes out the element that [list] shows under that
    number and keeps the others in order.  A number from 0 down to minus
    the number of elements, excluded, is not refused: it counts from the
    end, so that 0 takes out the last element and -1 the one before it.
    In both cases the command reports "Removed: ..." and the file holds
    the rest when the file can be written; when it cannot, the command
    ends with the [OSError] of the write, having printed nothing.  Any
    other number whose predecessor is a [Py_ssize_t] is refused with
    "Invalid task number." and the file is left as it was; beyond that
    the [OverflowError] of [list.pop] is not handled and ends the command,
    with nothing printed and the file as it was. *)
Theorem todo_remove_by_number (lib : str_lib) (d : disk)
    (action item : string) (number : Z) (tasks : list element) :
  lower lib action = "remove" ->
  item <> "" ->
  int_of_str lib item = Some number ->
  _load_todo d = PyList tasks ->
  Z.of_nat (List.length tasks) <= ssize_max ->
  let n := Z.of_nat (List.length tasks) in
  let run := todo lib d action (Some item) in
  let removes position :=
    exists task,
      nth_error tasks (Z.to_nat (position - 1)) = Some task
      /\ let rest := firstn (Z.to_nat (position - 1)) tasks
                       ++ skipn (Z.to_nat position) tasks in
         run = match write_text d rest with
               | Written =>
                   (([Echo [Str ("Removed: " ++ str_of task)%string]
                        (Some GREEN) false], inr tt),
                    Json (PyList rest))
               | WriteFails remains => (([], inl OSError), remains)
               end in
  (1 <= number <= n -> removes number)
  /\ (- n < number <= 0 -> removes (n + number))
  /\ ((- ssize_max <= number <= - n \/ n < number <= ssize_max + 1) ->
      run = (([Echo [Str "Invalid task number."] (Some RED) false], inr tt),
             file d))
  /\ (number < - ssize_max \/ ssize_max + 1 < number ->
      run = (([], inl OverflowError), file d)).
Proof.
  intros Hact Hitem Hint Hload Hmax. cbv zeta.
  rewrite (todo_remove lib d action item number tasks Hact Hitem Hint Hload).
  split; [|split; [|split]].
  - intros H.
    destruct (list_pop_inside tasks (number - 1)) as (task & Hn & ->);
      [lia | lia |].
    exists task. split; [exact Hn|].
    replace (S (Z.to_nat (number - 1))) with (Z.to_nat number) by lia.
    reflexivity.
  - intros H. rewrite list_pop_from_end by lia.
    destruct (list_pop_inside tasks (number - 1 + Z.of_nat (List.length tasks)))
      as (task & Hn & ->); [lia | lia |].
    replace (number - 1 + Z.of_nat (List.length tasks))
      with (Z.of_nat (List.length tasks) + number - 1) in * by lia.
    exists task. split; [exact Hn|].
    replace (S (Z.to_nat (Z.of_nat (List.length tasks) + number - 1)))
      with (Z.to_nat (Z.of_nat (List.length tasks) + number)) by lia.
    reflexivity.
  - intros H. rewrite list_pop_outside by lia. reflexivity.
  - intros H. rewrite list_pop_overflow by lia. reflexivity.
Qed.

Lemma todo_remove_by_number_witness :
  let d := writable (Json (PyList [Text "buy milk"; Text "call home";
                                   Text "pay rent"])) in
  todo ascii_lib d "remove" (Some "2")
  = (([Echo [Str "Removed: call home"] (Some GREEN) false], inr tt),
     Json (PyList [Text "buy milk"; Text "pay rent"]))
  /\ todo ascii_lib d "remove" (Some "0")
     = (([Echo [Str "Removed: pay rent"] (Some GREEN) false], inr tt),
        Json (PyList [Text "buy milk"; Text "call home"])).
Proof.
  cbv zeta. split.
  - destruct (todo_remove_by_number ascii_lib
                (writable (Json (PyList [Text "buy milk"; Text "call home";
                                         Text "pay rent"])))
                "remove" "2" 2
                [Text "buy milk"; Text "call home"; Text "pay rent"])
      as (H & _);
      [reflexivity | discriminate | reflexivity | reflexivity
      | unfold ssize_max; simpl; lia |].
    destruct H as (task & Htask & Hrun); [simpl; lia|].
    inversion Htask. subst task. exact Hrun.
  - destruct (todo_remove_by_number ascii_lib
                (writable (Json (PyList [Text "buy milk"; Text "call home";
                                         Text "pay rent"])))
                "remove" "0" 0
                [Text "buy milk"; Text "call home"; Text "pay rent"])
      as (_ & H & _);
      [reflexivity | discriminate | reflexivity | reflexivity
      | unfold ssize_max; simpl; lia |].
    destruct H as (task & Htask & Hrun); [simpl; lia|].
    inversion Htask. subst task. exact Hrun.
Defined.

Lemma list_pop_last {A} (l : list A) (x : A) :
  Z.of_nat (List.length l) <= ssize_max ->
  list_pop (l ++ [x]) (Z.of_nat (List.length l)) = Popped x l.
Proof.
  intros Hmax.
  destruct (list_pop_inside (l ++ [x]) (Z.of_nat (List.length l)))
    as (y & Hy & ->); [rewrite length_app; simpl; lia | exact Hmax |].
  rewrite Nat2Z.id in *.
  rewrite nth_error_app2, Nat.sub_diag in Hy by lia.
  inversion Hy. subst y.
  rewrite firstn_app, Nat.sub_diag, firstn_all, app_nil_r.
  rewrite skipn_all2 by (rewrite length_app; simpl; lia).
  now rewrite app_nil_r.
Qed.

(** X22. On a to-do file that is absent, unreadable or holds a list, and
    that can be written, removing a task right after adding it, under the
    number that follows the elements already there or under 0, reports
    the removal of that task and leaves in the file the list as it was
    before the [add]. *)
Theorem todo_add_remove_round_trip (lib : str_lib) (d : disk)
    (add_action remove_action text item : string) (number : Z)
    (tasks : list element) :
  lower lib add_action = "add" ->
  lower lib remove_action = "remove" ->
  text <> "" -> item <> "" ->
  int_of_str lib item = Some number ->
  _load_todo d = PyList tasks ->
  Z.of_nat (List.length tasks) < ssize_max ->
  write_text d (tasks ++ [Text text]) = Written ->
  write_text d tasks = Written ->
  number = Z.of_nat (List.length tasks) + 1 \/ number = 0 ->
  let added := then_holds d (snd (todo lib d add_action (Some text))) in
  todo lib added remove_action (Some item)
  = (([Echo [Str ("Removed: " ++ text)%string] (Some GREEN) false], inr tt),
     Json (PyList tasks)).
Proof.
  intros Hadd Hrem Htext Hitem Hint Hload Hmax Hw1 Hw2 Hnum. cbv zeta.
  rewrite (todo_add lib d add_action text tasks Hadd Htext Hload).
  unfold saved_with at 1. rewrite Hw1. simpl snd.
  rewrite (todo_remove lib (then_holds d (Json (PyList (tasks ++ [Text text]))))
             remove_action item number (tasks ++ [Text text])
             Hrem Hitem Hint eq_refl).
  assert (list_pop (tasks ++ [Text text]) (number - 1) = Popped (Text text) tasks)
    as ->.
  { destruct Hnum as [-> | ->].
    - replace (Z.of_nat (List.length tasks) + 1 - 1)
        with (Z.of_nat (List.length tasks)) by lia.
      apply list_pop_last. lia.
    - rewrite list_pop_from_end by (rewrite length_app; simpl; lia).
      rewrite length_app. simpl List.length.
      replace (0 - 1 + Z.of_nat (List.length tasks + 1))
        with (Z.of_nat (List.length tasks)) by lia.
      apply list_pop_last. lia. }
  unfold saved_with, then_holds. simpl write_text. rewrite Hw2. reflexivity.
Qed.

Lemma todo_add_remove_round_trip_witness :
  let d := writable (Json (PyList [Text "buy milk"])) in
  todo ascii_lib
    (then_holds d (snd (todo ascii_lib d "add" (Some "call home"))))
    "remove" (Some "2")
  = (([Echo [Str "Removed: call home"] (Some GREEN) false], inr tt),
     Json (PyList [Text "buy milk"])).
Proof.
  cbv zeta.
  apply (todo_add_remove_round_trip ascii_lib
           (writable (Json (PyList [Text "buy milk"])))
           "add" "remove" "call home" "2" 2 [Text "buy milk"]);
    [reflexivity | reflexivity | discriminate | discriminate | reflexivity
    | reflexivity | unfold ssize_max; simpl; lia | reflexivity | reflexivity
    | left; reflexivity].
Defined.





